(** * data-structure-saver: structural trimming and schema inference

    A shallow embedding of the three pure functions of [src/app/page.tsx]
    ([trimStructure], [mergeSchemas] with its helper [normalizeTypes],
    [inferSchema] and [generateSchema]) together with the JavaScript
    run-time notions they rely on: own-property order of plain objects,
    [Array.prototype.slice], [Set] insertion order, [Number.isInteger];
    and of the component around them: the tree view ([renderJson],
    [formatPrimitive], [toggleCollapsed]) and the handlers
    ([parsedLimit], [handleTrim], [handleGenerateSchema],
    [handleFormatInput]).

    Modelling conventions.
    - A JavaScript plain object is the list of its own enumerable entries
      in own-property order (array-index keys first, ascending; then the
      other string keys by creation time).  Writing a property is
      [obj_set]; reading one is [obj_get].
    - Property names that collide with members of [Object.prototype]
      (["constructor"], ["__proto__"], ...) are outside the model: reads
      see own properties only, and writes make own properties.  The
      values and schemas free of such names are [ordinary_keys] and
      [ordinary_properties].
    - A property holding [undefined] is not distinguished from an absent
      one (the inferrer and the merger only read such fields through
      [??] and [JSON.stringify] drops them); the tree view of a schema,
      which would list them, is not modelled.
    - A number is an IEEE-754 datum in the Standard Library's
      [spec_float] representation. *)

From Stdlib Require Import List String Ascii Bool Arith ZArith QArith Qpower Lia.
From Stdlib Require Import Permutation.
From Stdlib Require Import SpecFloat.
From Stdlib Require Import NArith Decimal DecimalString DecimalNat.
Import ListNotations.

Close Scope Q_scope.
Open Scope string_scope.
Open Scope list_scope.

(** [length] is the length of a list throughout; strings use
    [String.length]. *)
Abbreviation length := List.length.

(* ================================================================== *)
(** ** JavaScript run-time model *)

Module Js.

(** Insertion-ordered [Set] built from an iterable: [new Set(xs)] keeps
    the first occurrence of every member. *)
Definition has (xs : list string) (x : string) : bool :=
  existsb (String.eqb x) xs.

Definition set_add (acc : list string) (x : string) : list string :=
  if has acc x then acc else acc ++ [x].

Definition set_from (xs : list string) : list string :=
  fold_left set_add xs [].

(** [xs.slice(0, fin)] for an integral [fin]: a negative end counts from
    the end of the array, a non-negative one is clamped to the length. *)
Definition slice_end {A : Type} (xs : list A) (fin : Z) : nat :=
  let len := Z.of_nat (List.length xs) in
  Z.to_nat (if (fin <? 0)%Z then Z.max (len + fin) 0 else Z.min fin len).

Definition slice0 {A : Type} (xs : list A) (fin : Z) : list A :=
  firstn (slice_end xs fin) xs.

(** *** Array indices among property keys *)

Definition is_digit (c : ascii) : bool :=
  let n := nat_of_ascii c in ((48 <=? n)%nat && (n <=? 57)%nat)%bool.

Fixpoint digits_value (acc : N) (s : string) : N :=
  match s with
  | EmptyString => acc
  | String c s' =>
      digits_value (acc * 10 + N.of_nat (nat_of_ascii c - 48))%N s'
  end.

Fixpoint all_digits (s : string) : bool :=
  match s with
  | EmptyString => true
  | String c s' => is_digit c && all_digits s'
  end.

(** A key is an array index when it is the canonical decimal spelling of
    an integer in [0, 2^32 - 2]. *)
Definition array_index (k : string) : option N :=
  match k with
  | EmptyString => None
  | String c rest =>
      if all_digits k
         && (negb (Ascii.eqb c "0") || String.eqb rest "")
         && (String.length k <=? 10)%nat
         && (digits_value 0 k <? 4294967295)%N
      then Some (digits_value 0 k)
      else None
  end.

(** [key_before k1 k2]: in own-property order, a key [k1] that is already
    present stays in front of a freshly created key [k2]. *)
Definition key_before (k1 k2 : string) : bool :=
  match array_index k1, array_index k2 with
  | Some a, Some b => (a <? b)%N
  | Some _, None => true
  | None, Some _ => false
  | None, None => true
  end.

Section Objects.
Context {V : Type}.

Definition obj := list (string * V).

(** [o[key]] on own properties. *)
Fixpoint obj_get (o : obj) (key : string) : option V :=
  match o with
  | [] => None
  | (k, v) :: o' => if String.eqb k key then Some v else obj_get o' key
  end.

Definition keys (o : obj) : list string := map fst o.

Definition has_key (o : obj) (key : string) : bool := has (keys o) key.

(** Overwrite the value of an existing own property, in place. *)
Fixpoint obj_replace (o : obj) (key : string) (v : V) : obj :=
  match o with
  | [] => []
  | (k, w) :: o' =>
      if String.eqb k key then (k, v) :: o'
      else (k, w) :: obj_replace o' key v
  end.

(** Create a new own property at its place in own-property order. *)
Fixpoint obj_create (o : obj) (key : string) (v : V) : obj :=
  match o with
  | [] => [(key, v)]
  | (k, w) :: o' =>
      if key_before k key then (k, w) :: obj_create o' key v
      else (key, v) :: (k, w) :: o'
  end.

(** [o[key] = v]. *)
Definition obj_set (o : obj) (key : string) (v : V) : obj :=
  if has_key o key then obj_replace o key v else obj_create o key v.

(** The object a loop [ks.forEach(key => { o[key] = f(key) })] leaves
    in [o]. *)
Definition fill (f : string -> V) (ks : list string) (o : obj) : obj :=
  fold_left (fun props key => obj_set props key (f key)) ks o.

(** [Object.fromEntries(entries)]. *)
Definition fromEntries (entries : list (string * V)) : obj :=
  fold_left (fun o kv => obj_set o (fst kv) (snd kv)) entries [].

(** The entry lists that are the [Object.entries] of some object:
    no key twice, and every key in front of the later ones. *)
Fixpoint ordered_keys (ks : list string) : bool :=
  match ks with
  | [] => true
  | k :: ks' =>
      negb (has ks' k) && forallb (key_before k) ks' && ordered_keys ks'
  end.

Definition is_object (o : obj) : bool := ordered_keys (keys o).
End Objects.

Arguments obj : clear implicits.

End Js.

(* ================================================================== *)
(** ** JSON values *)

Unset Elimination Schemes.
Inductive JsonValue : Type :=
| JNull
| JBool (b : bool)
| JNumber (x : spec_float)
| JString (s : string)
| JArray (items : list JsonValue)
| JObject (entries : Js.obj JsonValue).
Set Elimination Schemes.

Section JsonValue_induction.
Variable P : JsonValue -> Prop.
Hypothesis Hnull : P JNull.
Hypothesis Hbool : forall b, P (JBool b).
Hypothesis Hnumber : forall x, P (JNumber x).
Hypothesis Hstring : forall s, P (JString s).
Hypothesis Harray : forall items, Forall P items -> P (JArray items).
Hypothesis Hobject :
  forall entries, Forall (fun kv => P (snd kv)) entries -> P (JObject entries).

Fixpoint JsonValue_ind (v : JsonValue) : P v :=
  match v with
  | JNull => Hnull
  | JBool b => Hbool b
  | JNumber x => Hnumber x
  | JString s => Hstring s
  | JArray items =>
      Harray items
        ((fix go (l : list JsonValue) : Forall P l :=
            match l with
            | [] => Forall_nil _
            | x :: l' => Forall_cons x (JsonValue_ind x) (go l')
            end) items)
  | JObject entries =>
      Hobject entries
        ((fix go (l : list (string * JsonValue))
            : Forall (fun kv => P (snd kv)) l :=
            match l with
            | [] => Forall_nil _
            | kv :: l' =>
                @Forall_cons _ (fun kv => P (snd kv)) kv l'
                  (JsonValue_ind (snd kv)) (go l')
            end) entries)
  end.
End JsonValue_induction.

(** A value as [JSON.parse] delivers it: every object node lists its
    entries in own-property order, without repeated keys. *)
Fixpoint well_formed (v : JsonValue) : bool :=
  match v with
  | JArray items => forallb well_formed items
  | JObject entries =>
      Js.is_object entries && forallb (fun kv => well_formed (snd kv)) entries
  | _ => true
  end.

(* ================================================================== *)
(** ** The trimmer *)

(** [trimStructure(value, maxArrayLen)].  The array case runs
    [value.slice(0, maxArrayLen).map(...)] as one pass over the retained
    prefix, so that the recursion is structural; [trimStructure_array]
    below restores the two-step reading. *)
Fixpoint trimStructure (value : JsonValue) (maxArrayLen : Z) {struct value}
  : JsonValue :=
  match value with
  | JArray items =>
      JArray
        ((fix slice_map (count : nat) (xs : list JsonValue) {struct xs}
            : list JsonValue :=
            match count, xs with
            | S count', item :: xs' =>
                trimStructure item maxArrayLen :: slice_map count' xs'
            | _, _ => []
            end) (Js.slice_end items maxArrayLen) items)
  | JObject es =>
      let entries :=
        map (fun kv => (fst kv, trimStructure (snd kv) maxArrayLen)) es in
      JObject (Js.fromEntries entries)
  | _ => value
  end.

(* ================================================================== *)
(** ** Schemas *)

(** The [type] field: [string | string[]]. *)
Inductive SchemaType : Type :=
| TypeOne (tag : string)
| TypeMany (tags : list string).

Unset Elimination Schemes.
Inductive JsonSchema : Type := mkSchema {
  dollar_schema : option string;                       (* [$schema] *)
  type : option SchemaType;
  properties : option (Js.obj JsonSchema);
  items : option JsonSchema;
  required : option (list string)
}.
Set Elimination Schemes.

Section JsonSchema_induction.
Variable P : JsonSchema -> Prop.
Hypothesis Hschema :
  forall d t ps it rq,
    (forall p, ps = Some p -> Forall (fun kv => P (snd kv)) p) ->
    (forall i, it = Some i -> P i) ->
    P (mkSchema d t ps it rq).

Fixpoint JsonSchema_ind (s : JsonSchema) : P s :=
  match s with
  | mkSchema d t ps it rq =>
      Hschema d t ps it rq
        (match ps as o
               return forall p, o = Some p -> Forall (fun kv => P (snd kv)) p
         with
         | Some p0 =>
             fun p E =>
               match E in _ = o'
                     return match o' with
                            | Some p' => Forall (fun kv => P (snd kv)) p'
                            | None => True
                            end
               with
               | eq_refl =>
                   (fix go (l : list (string * JsonSchema))
                      : Forall (fun kv => P (snd kv)) l :=
                      match l with
                      | [] => Forall_nil _
                      | kv :: l' =>
                          @Forall_cons _ (fun kv => P (snd kv)) kv l'
                            (JsonSchema_ind (snd kv)) (go l')
                      end) p0
               end
         | None => fun p E => match E with end
         end)
        (match it as o return forall i, o = Some i -> P i with
         | Some i0 =>
             fun i E =>
               match E in _ = o'
                     return match o' with Some i' => P i' | None => True end
               with
               | eq_refl => JsonSchema_ind i0
               end
         | None => fun i E => match E with end
         end)
  end.
End JsonSchema_induction.

(** The schema literal [{}]. *)
Definition empty_schema : JsonSchema := mkSchema None None None None None.

(** The schema literal [{ type: tag }]. *)
Definition type_only (tag : string) : JsonSchema :=
  mkSchema None (Some (TypeOne tag)) None None None.

(** [x ?? d]. *)
Definition nullish {A : Type} (x : option A) (d : A) : A :=
  match x with Some a => a | None => d end.

(** [normalizeTypes(schema)].  The guard [!schema?.type] also rejects the
    empty string, the one falsy value a [string | string[]] can take. *)
Definition normalizeTypes (schema : option JsonSchema) : list string :=
  match schema with
  | None => []
  | Some s =>
      match type s with
      | None => []
      | Some (TypeOne tag) => if String.eqb tag "" then [] else [tag]
      | Some (TypeMany tags) => tags
      end
  end.

(* ================================================================== *)
(** ** The merger *)

(** The [type] written into [merged]: nothing for no tag, the tag itself
    for one, the array for several. *)
Definition merged_type (types : list string) : option SchemaType :=
  match types with
  | [] => None
  | [tag] => Some (TypeOne tag)
  | _ => Some (TypeMany types)
  end.

(** The [required] written into [merged]: the members of [left.required]
    (as a [Set]) that [right.required] has; left out when there is none. *)
Definition merged_required (left right : JsonSchema) : option (list string) :=
  let leftRequired := Js.set_from (nullish (required left) []) in
  let rightRequired := Js.set_from (nullish (required right) []) in
  let required := filter (Js.has rightRequired) leftRequired in
  match required with
  | [] => None
  | _ => Some required
  end.

(** The body of [mergeSchemas] once both guards [!left] and [!right] have
    been passed.  The recursive calls [mergeSchemas(x ?? null, y ?? null)]
    are written with the read of the left operand ([leftProps[key]],
    [left.items]) fused into the call, which keeps the recursion
    structural on [left]; [merge_both_unfold] below gives the equation in
    the shape of the source.  The reads [leftProps[key]] and
    [rightProps[key]] are reads of own properties: for a [key] that names
    a property of [Object.prototype] and is no own property of the
    operand the code gets that property instead ([ordinary_properties]
    below excludes such keys). *)
Fixpoint merge_both (left right : JsonSchema) {struct left} : JsonSchema :=
  let types :=
    Js.set_from (normalizeTypes (Some left) ++ normalizeTypes (Some right)) in
  let leftIsObject := Js.has (normalizeTypes (Some left)) "object" in
  let rightIsObject := Js.has (normalizeTypes (Some right)) "object" in
  let leftIsArray := Js.has (normalizeTypes (Some left)) "array" in
  let rightIsArray := Js.has (normalizeTypes (Some right)) "array" in
  let rightProps := nullish (properties right) [] in
  (* [mergeSchemas(leftProps[key] ?? null, r)] *)
  let merge_at :=
    fix merge_at (leftProps : Js.obj JsonSchema) (key : string)
                 (r : option JsonSchema) {struct leftProps} : JsonSchema :=
      match leftProps with
      | [] => nullish r empty_schema
      | (k, l) :: leftProps' =>
          if String.eqb k key
          then match r with Some r' => merge_both l r' | None => l end
          else merge_at leftProps' key r
      end in
  let merge_props (leftProps : Js.obj JsonSchema) : Js.obj JsonSchema :=
    let keys := Js.set_from (Js.keys leftProps ++ Js.keys rightProps) in
    fold_left
      (fun props key =>
         Js.obj_set props key (merge_at leftProps key (Js.obj_get rightProps key)))
      keys [] in
  mkSchema
    None
    (merged_type types)
    (if leftIsObject && rightIsObject
     then Some match properties left with
               | Some leftProps => merge_props leftProps
               | None => merge_props []
               end
     else None)
    (if leftIsArray && rightIsArray
     then Some match items left with
               | Some l =>
                   match items right with Some r => merge_both l r | None => l end
               | None => nullish (items right) empty_schema
               end
     else None)
    (if leftIsObject && rightIsObject then merged_required left right else None).

(** [mergeSchemas(left, right)]. *)
Definition mergeSchemas (left right : option JsonSchema) : JsonSchema :=
  match left with
  | None => nullish right empty_schema
  | Some l =>
      match right with
      | None => l
      | Some r => merge_both l r
      end
  end.

(** The [properties] object built by the [keys.forEach] loop. *)
Definition merged_properties (leftProps rightProps : Js.obj JsonSchema)
  : Js.obj JsonSchema :=
  let keys := Js.set_from (Js.keys leftProps ++ Js.keys rightProps) in
  Js.fill
    (fun key =>
       mergeSchemas (Js.obj_get leftProps key) (Js.obj_get rightProps key))
    keys [].

(* ================================================================== *)
(** ** The inferrer *)

(** [Number.isInteger(x)]: finite, and of integral value.  A finite
    datum [S754_finite s m e] stands for [(-1)^s * m * 2^e]. *)
Definition Number_isInteger (x : spec_float) : bool :=
  match x with
  | S754_zero _ => true
  | S754_infinity _ => false
  | S754_nan => false
  | S754_finite _ m e =>
      if (0 <=? e)%Z then true else (Z.pos m mod 2 ^ (- e) =? 0)%Z
  end.

(** [inferSchema(value)].  The write [properties[key] = ...] makes an own
    property; for the key ["__proto__"] the code runs the setter of
    [Object.prototype] instead ([ordinary_keys] below excludes such
    values). *)
Fixpoint inferSchema (value : JsonValue) : JsonSchema :=
  match value with
  | JNull => type_only "null"
  | JArray items =>
      match items with
      | [] => mkSchema None (Some (TypeOne "array")) None (Some empty_schema) None
      | _ =>
          let itemsSchema :=
            fold_left
              (fun acc item => Some (mergeSchemas acc (Some (inferSchema item))))
              items None in
          mkSchema None (Some (TypeOne "array")) None
                   (Some (nullish itemsSchema empty_schema)) None
      end
  | JObject entries =>
      let properties :=
        fold_left
          (fun props kv => Js.obj_set props (fst kv) (inferSchema (snd kv)))
          entries [] in
      let required := Js.keys properties in
      mkSchema None (Some (TypeOne "object")) (Some properties) None
               (match required with [] => None | _ => Some required end)
  | JNumber x =>
      type_only (if Number_isInteger x then "integer" else "number")
  | JString _ => type_only "string"
  | JBool _ => type_only "boolean"
  end.

(** The [items] schema of an array: the left fold of the merger over the
    element schemas. *)
Definition unified (items : list JsonValue) (acc : option JsonSchema)
  : option JsonSchema :=
  fold_left (fun acc item => Some (mergeSchemas acc (Some (inferSchema item))))
            items acc.

(** The [properties] object of an object node. *)
Definition inferred_properties (es : Js.obj JsonValue)
           (acc : Js.obj JsonSchema) : Js.obj JsonSchema :=
  fold_left (fun props kv => Js.obj_set props (fst kv) (inferSchema (snd kv)))
            es acc.

(** The seven tags the inferrer writes. *)
Definition inferred_tag (v : JsonValue) : string :=
  match v with
  | JNull => "null"
  | JBool _ => "boolean"
  | JNumber x => if Number_isInteger x then "integer" else "number"
  | JString _ => "string"
  | JArray _ => "array"
  | JObject _ => "object"
  end.

(** No tag is the empty string. *)
Definition nonblank (ts : list string) : Prop := ~ In "" ts.

Definition draft_2020_12 : string :=
  "https://json-schema.org/draft/2020-12/schema".

(** [generateSchema(value)]: the object literal
    [{ $schema: ..., ...schema }]; an own [$schema] of [schema] would
    overwrite the one written first. *)
Definition generateSchema (value : JsonValue) : JsonSchema :=
  let schema := inferSchema value in
  mkSchema
    (match dollar_schema schema with
     | Some own => Some own
     | None => Some draft_2020_12
     end)
    (type schema) (properties schema) (items schema) (required schema).

(* ================================================================== *)
(** ** Observations on values and schemas *)

(** The kind of a node, as [typeof] and [Array.isArray] tell it. *)
Inductive Kind : Type :=
| KNull | KBoolean | KNumber | KString | KArray | KObject.

Definition kind (v : JsonValue) : Kind :=
  match v with
  | JNull => KNull
  | JBool _ => KBoolean
  | JNumber _ => KNumber
  | JString _ => KString
  | JArray _ => KArray
  | JObject _ => KObject
  end.

Definition is_scalar (v : JsonValue) : bool :=
  match v with
  | JArray _ | JObject _ => false
  | _ => true
  end.

(** [Object.keys(v)] of an object node, in order. *)
Definition entry_keys (v : JsonValue) : option (list string) :=
  match v with
  | JObject es => Some (Js.keys es)
  | _ => None
  end.

(** One step of a structural path: [.key] or [[index]]. *)
Inductive step : Type :=
| Key (k : string)
| Index (i : nat).

Definition is_key (s : step) : bool :=
  match s with Key _ => true | Index _ => false end.

(** The node a path leads to from [v], if there is one. *)
Fixpoint node_at (v : JsonValue) (path : list step) : option JsonValue :=
  match path with
  | [] => Some v
  | Key k :: path' =>
      match v with
      | JObject es =>
          match Js.obj_get es k with
          | Some child => node_at child path'
          | None => None
          end
      | _ => None
      end
  | Index i :: path' =>
      match v with
      | JArray items =>
          match nth_error items i with
          | Some child => node_at child path'
          | None => None
          end
      | _ => None
      end
  end.

(** A step that [slice(0, limit)] keeps: an index below [limit], or any
    key. *)
Definition index_below (limit : Z) (s : step) : bool :=
  match s with
  | Key _ => true
  | Index i => (Z.of_nat i <? limit)%Z
  end.

(** Every array occurring anywhere in [v] has at most [limit] elements. *)
Fixpoint arrays_within (limit : Z) (v : JsonValue) : bool :=
  match v with
  | JArray xs =>
      (Z.of_nat (length xs) <=? limit)%Z && forallb (arrays_within limit) xs
  | JObject es => forallb (fun kv => arrays_within limit (snd kv)) es
  | _ => true
  end.

(** The length of the longest array occurring anywhere in [v]. *)
Fixpoint max_array_len (v : JsonValue) : nat :=
  match v with
  | JArray items =>
      Nat.max (length items)
              (fold_right (fun item m => Nat.max (max_array_len item) m) 0 items)
  | JObject es =>
      fold_right (fun kv m => Nat.max (max_array_len (snd kv)) m) 0 es
  | _ => 0
  end.

(** The type tags of a schema, and the test
    [normalizeTypes(schema).includes(tag)]. *)
Definition tags (s : JsonSchema) : list string := normalizeTypes (Some s).

Definition has_tag (s : JsonSchema) (tag : string) : bool :=
  Js.has (tags s) tag.

Definition is_some {A : Type} (x : option A) : bool :=
  match x with Some _ => true | None => false end.



(** The structural invariant at one schema: [properties] comes with the
    tag [object], [items] with the tag [array]. *)
Definition root_invariant (s : JsonSchema) : bool :=
  implb (has_tag s "object") (is_some (properties s))
  && implb (has_tag s "array") (is_some (items s)).

(** [everywhere P s]: [P] at [s] and at every schema nested in it. *)
Fixpoint everywhere (P : JsonSchema -> bool) (s : JsonSchema) : bool :=
  P s
  && match properties s with
     | Some ps => forallb (fun kv => everywhere P (snd kv)) ps
     | None => true
     end
  && match items s with
     | Some i => everywhere P i
     | None => true
     end.

(** [below P s]: [P] at every schema nested in [s], [s] itself apart. *)
Definition below (P : JsonSchema -> bool) (s : JsonSchema) : bool :=
  match properties s with
  | Some ps => forallb (fun kv => everywhere P (snd kv)) ps
  | None => true
  end
  && match items s with
     | Some i => everywhere P i
     | None => true
     end.

Definition structural_invariant : JsonSchema -> bool :=
  everywhere root_invariant.

Definition no_dollar_schema (s : JsonSchema) : bool :=
  negb (is_some (dollar_schema s)).


(** *** Equality of schemas up to order

    Two schemas are alike when they differ at most in the order of their
    type tags, of their property keys and of their required names, at
    every level. *)

Inductive opt_rel {A : Type} (R : A -> A -> Prop)
  : option A -> option A -> Prop :=
| opt_rel_none : opt_rel R None None
| opt_rel_some a b : R a b -> opt_rel R (Some a) (Some b).

Inductive type_alike : SchemaType -> SchemaType -> Prop :=
| type_alike_one tag : type_alike (TypeOne tag) (TypeOne tag)
| type_alike_many l1 l2 :
    Permutation l1 l2 -> type_alike (TypeMany l1) (TypeMany l2).

Inductive props_alike (R : JsonSchema -> JsonSchema -> Prop)
          (p q : Js.obj JsonSchema) : Prop :=
| props_alike_intro :
    Permutation (Js.keys p) (Js.keys q) ->
    (forall k, opt_rel R (Js.obj_get p k) (Js.obj_get q k)) ->
    props_alike R p q.

Unset Elimination Schemes.
Inductive schema_alike : JsonSchema -> JsonSchema -> Prop :=
| schema_alike_intro a b :
    dollar_schema a = dollar_schema b ->
    opt_rel type_alike (type a) (type b) ->
    opt_rel (props_alike schema_alike) (properties a) (properties b) ->
    opt_rel schema_alike (items a) (items b) ->
    opt_rel (@Permutation string) (required a) (required b) ->
    schema_alike a b.
Set Elimination Schemes.

(** *** The value of a number

    The rational a finite datum stands for; infinities and NaN stand for
    none. *)
Definition number_value (x : spec_float) : option Q :=
  match x with
  | S754_zero _ => Some 0%Q
  | S754_infinity _ => None
  | S754_nan => None
  | S754_finite s m e =>
      Some (inject_Z (if s then Z.neg m else Z.pos m) * Qpower 2 e)%Q
  end.

(** The number is mathematically an integer: it has no fractional part. *)
Definition integral (x : spec_float) : Prop :=
  exists (q : Q) (z : Z), number_value x = Some q /\ (q == inject_Z z)%Q.

(* ================================================================== *)
(** ** Sample data *)

Module Samples.
(** The number literal [n] for a positive integer. *)
Definition num (n : positive) : JsonValue := JNumber (S754_finite false n 0).
(** [5.5 = 11 * 2^-1]. *)
Definition five_and_a_half : JsonValue := JNumber (S754_finite false 11 (-1)).

Definition integer : JsonSchema := type_only "integer".

(** [{"a":1,"b":2}] and [{"a":1}]. *)
Definition obj_ab : JsonValue := JObject [("a", num 1); ("b", num 2)].
Definition obj_a : JsonValue := JObject [("a", num 1)].
Definition obj_ba : JsonValue := JObject [("b", num 2); ("a", num 1)].

(** The end-to-end document of the specification. *)
Definition users : JsonValue :=
  JObject
    [("users",
      JArray
        [JObject [("id", num 1); ("name", JString "Ada");
                  ("roles", JArray [JString "admin"; JString "editor"])];
         JObject [("id", num 2); ("name", JString "Max");
                  ("roles", JArray [JString "viewer"])]])].
End Samples.


(* ================================================================== *)
(** ** Further observations on schemas *)

(** *** Keys that reach [Object.prototype]

    The embedding reads and writes own properties.  In the code the read
    [leftProps[key]] also sees the properties of [Object.prototype] when
    [key] is no own property of the operand, and the write
    [properties[key] = ...] runs the setter of the prototype when [key]
    is ["__proto__"].  Code and embedding coincide on the values none of
    whose keys is the name of a property of [Object.prototype], and on
    the schemas none of whose property names is one; the statements that
    depend on it carry this as a hypothesis. *)
Definition Object_prototype_names : list string :=
  ["constructor"; "__defineGetter__"; "__defineSetter__"; "hasOwnProperty";
   "__lookupGetter__"; "__lookupSetter__"; "isPrototypeOf";
   "propertyIsEnumerable"; "toString"; "valueOf"; "__proto__";
   "toLocaleString"].

Definition ordinary_key (k : string) : bool :=
  negb (Js.has Object_prototype_names k).

(** No key of the value, at any depth, names a property of
    [Object.prototype]. *)
Fixpoint ordinary_keys (v : JsonValue) : bool :=
  match v with
  | JArray xs => forallb ordinary_keys xs
  | JObject es =>
      forallb (fun kv => ordinary_key (fst kv) && ordinary_keys (snd kv)) es
  | _ => true
  end.

(** The same for the property names of a schema, at every level. *)
Definition ordinary_names (s : JsonSchema) : bool :=
  forallb ordinary_key (Js.keys (nullish (properties s) [])).

Definition ordinary_properties : JsonSchema -> bool :=
  everywhere ordinary_names.

(** The value of a decimal digit. *)
Definition digit_of (c : ascii) : N := N.of_nat (nat_of_ascii c - 48).

(** No name twice. *)
Fixpoint distinct (names : list string) : bool :=
  match names with
  | [] => true
  | x :: rest => negb (Js.has rest x) && distinct rest
  end.

(** The tags of JSON Schema that the inferrer writes. *)
Definition schema_tags : list string :=
  ["null"; "boolean"; "integer"; "number"; "string"; "array"; "object"].

Definition known_tags (s : JsonSchema) : bool :=
  forallb (Js.has schema_tags) (tags s).

(** Every required name is the name of a property, and neither list
    names anything twice. *)
Definition names_consistent (s : JsonSchema) : bool :=
  forallb (Js.has_key (nullish (properties s) [])) (nullish (required s) [])
  && distinct (Js.keys (nullish (properties s) []))
  && distinct (nullish (required s) []).

(** The [type] field is in the form the merger writes: absent, one
    non-empty tag, or at least two different non-empty tags. *)
Definition type_normal (t : option SchemaType) : bool :=
  match t with
  | None => true
  | Some (TypeOne tag) => negb (String.eqb tag "")
  | Some (TypeMany ts) =>
      distinct ts && (2 <=? length ts)%nat && negb (Js.has ts "")
  end.

(** The shape every schema built by the inferrer and the merger has: no
    [$schema]; a normal [type]; [properties] and [required] only beside
    the tag [object], [items] only beside the tag [array]; [properties]
    an object in own-property order; [required], when there, a
    non-empty list of different names. *)
Definition well_shaped (s : JsonSchema) : bool :=
  negb (is_some (dollar_schema s))
  && type_normal (type s)
  && implb (is_some (properties s)) (has_tag s "object")
  && Js.is_object (nullish (properties s) [])
  && implb (is_some (required s)) (has_tag s "object")
  && match required s with
     | None => true
     | Some [] => false
     | Some names => distinct names
     end
  && implb (is_some (items s)) (has_tag s "array").

(** A schema in normal form: well shaped and satisfying the structural
    invariant, at every level. *)
Definition normal_form : JsonSchema -> bool :=
  everywhere (fun s => well_shaped s && root_invariant s).

(* ================================================================== *)
(** ** The tree view

    [renderJson] turns the shown value into a list of lines; a line of
    an array or object carries a button that toggles the membership of
    the node's structural path in the set [collapsedPaths].  A line is
    kept as what its markup varies in: the indentation depth, the text,
    and the [options] of [pushLine].  [JSON.stringify] on strings and the
    conversion of a number to a string are parameters. *)

Module View.

(** [String(n)] for an array index or a count. *)
Definition dec (n : nat) : string := NilEmpty.string_of_uint (Nat.to_uint n).

(** The double quote. *)
Definition quote : string := String (ascii_of_nat 34) "".

(** [xs.join(sep)]. *)
Fixpoint join (sep : string) (xs : list string) : string :=
  match xs with
  | [] => ""
  | [x] => x
  | x :: rest => x ++ sep ++ join sep rest
  end.

Record Line : Type := mkLine {
  content : string;
  depth : nat;
  options : option (string * bool)        (* [togglePath], [isCollapsed] *)
}.

(** The call [pushLine(content, depth, options)] adds this line. *)
Definition pushLine (content : string) (depth : nat)
           (options : option (string * bool)) : Line :=
  mkLine content depth options.

(** The toggles of a list of lines, in order. *)
Definition toggles (lines : list Line) : list (string * bool) :=
  flat_map (fun l => match options l with Some t => [t] | None => [] end)
           lines.

(** [hasToggle]: [Boolean(options?.togglePath)]. *)
Definition hasToggle (l : Line) : bool :=
  match options l with
  | Some (togglePath, _) => negb (String.eqb togglePath "")
  | None => false
  end.

(** The structural path a step leads to: [`${path}.${key}`] and
    [`${path}[${index}]`]. *)
Definition step_path (path : string) (s : step) : string :=
  match s with
  | Key key => path ++ "." ++ key
  | Index index => path ++ "[" ++ dec index ++ "]"
  end.

Definition path_from (path : string) (steps : list step) : string :=
  fold_left step_path steps path.

(** The path of a node of the shown value; the root is ["$"]. *)
Definition path_string (steps : list step) : string := path_from "$" steps.

(** The text a step adds to a path. *)
Definition segment (s : step) : string :=
  match s with
  | Key k => ("." ++ k)%string
  | Index i => ("[" ++ dec i ++ "]")%string
  end.

Fixpoint segments (steps : list step) : string :=
  match steps with
  | [] => ""
  | s :: rest => (segment s ++ segments rest)%string
  end.

(** A text that is empty or begins with a dot or an opening bracket. *)
Definition delimited (r : string) : Prop :=
  match r with
  | EmptyString => True
  | String c _ => c = "."%char \/ c = "["%char
  end.

(** [toggleCollapsed(path)] applied to the previous set. *)
Definition toggleCollapsed (path : string) (prev : list string) : list string :=
  let next := Js.set_from prev in
  if Js.has next path
  then filter (fun p => negb (String.eqb p path)) next
  else next ++ [path].

Section Render.
Variable JSON_stringify : string -> string.
Variable Number_toString : spec_float -> string.

(** [String(value)]. *)
Fixpoint js_String (value : JsonValue) : string :=
  match value with
  | JNull => "null"
  | JBool b => if b then "true" else "false"
  | JNumber x => Number_toString x
  | JString s => s
  | JArray xs =>
      join ","
           (map (fun x => match x with JNull => "" | _ => js_String x end) xs)
  | JObject _ => "[object Object]"
  end.

(** [formatPrimitive(value)]. *)
Definition formatPrimitive (value : JsonValue) : string :=
  match value with
  | JString s => JSON_stringify s
  | JNull => "null"
  | _ => js_String value
  end.

Variable collapsedPaths : list string.

(** [renderNode(node, path, depth, isLast, keyPrefix)]: the lines it
    pushes, in order. *)
Fixpoint renderNode (node : JsonValue) (path : string) (depth : nat)
         (isLast : bool) (keyPrefix : option string) {struct node}
  : list Line :=
  let prefix := nullish keyPrefix "" in
  let comma := if isLast then "" else "," in
  match node with
  | JArray xs =>
      let count := length xs in
      if Js.has collapsedPaths path
      then [pushLine (prefix ++ "[… " ++ dec count ++ "]" ++ comma) depth
                     (Some (path, true))]
      else
        pushLine (prefix ++ "[") depth (Some (path, false))
        :: (fix forEach (index : nat) (rest : list JsonValue) {struct rest}
              : list Line :=
              match rest with
              | [] => []
              | item :: rest' =>
                  renderNode item (step_path path (Index index)) (S depth)
                             (index =? count - 1)%nat None
                  ++ forEach (S index) rest'
              end) 0 xs
        ++ [pushLine ("]" ++ comma) depth None]
  | JObject es =>
      let count := length es in
      if Js.has collapsedPaths path
      then [pushLine (prefix ++ "{… " ++ dec count ++ "}" ++ comma) depth
                     (Some (path, true))]
      else
        pushLine (prefix ++ "{") depth (Some (path, false))
        :: (fix forEach (index : nat) (rest : list (string * JsonValue))
                {struct rest} : list Line :=
              match rest with
              | [] => []
              | (key, val) :: rest' =>
                  renderNode val (step_path path (Key key)) (S depth)
                             (index =? count - 1)%nat
                             (Some (quote ++ key ++ quote ++ ": ")%string)
                  ++ forEach (S index) rest'
              end) 0 es
        ++ [pushLine ("}" ++ comma) depth None]
  | _ => [pushLine (prefix ++ formatPrimitive node ++ comma) depth None]
  end.

(** The lines of the two [forEach] loops of [renderNode], from the
    element or entry number [index] on. *)
Fixpoint forEach_item (path : string) (depth count index : nat)
         (rest : list JsonValue) : list Line :=
  match rest with
  | [] => []
  | item :: rest' =>
      renderNode item (step_path path (Index index)) (S depth)
                 (index =? count - 1)%nat None
      ++ forEach_item path depth count (S index) rest'
  end.

Fixpoint forEach_entry (path : string) (depth count index : nat)
         (rest : list (string * JsonValue)) : list Line :=
  match rest with
  | [] => []
  | (key, val) :: rest' =>
      renderNode val (step_path path (Key key)) (S depth)
                 (index =? count - 1)%nat
                 (Some (quote ++ key ++ quote ++ ": ")%string)
      ++ forEach_entry path depth count (S index) rest'
  end.

(** [renderJson(value)]. *)
Definition renderJson (value : JsonValue) : list Line :=
  renderNode value "$" 0 true None.
End Render.

End View.

(** The number of nodes of a value, and the number of its arrays and
    objects. *)
Fixpoint node_count (v : JsonValue) : nat :=
  match v with
  | JArray xs => S (fold_right (fun x n => node_count x + n) 0 xs)
  | JObject es => S (fold_right (fun kv n => node_count (snd kv) + n) 0 es)
  | _ => 1
  end.

Fixpoint container_count (v : JsonValue) : nat :=
  match v with
  | JArray xs => S (fold_right (fun x n => container_count x + n) 0 xs)
  | JObject es =>
      S (fold_right (fun kv n => container_count (snd kv) + n) 0 es)
  | _ => 0
  end.

(** The arrays and objects of a value that are in view when the paths
    of [collapsed] are collapsed, each given by the steps that lead to
    it from the root: the node itself and, unless its path is collapsed,
    those of its elements or entry values, from first to last. *)
Fixpoint shown_containers (collapsed : list string) (steps : list step)
         (v : JsonValue) {struct v} : list (list step) :=
  match v with
  | JArray xs =>
      steps
      :: (if Js.has collapsed (View.path_string steps) then []
          else (fix each (index : nat) (rest : list JsonValue) {struct rest}
                  : list (list step) :=
                  match rest with
                  | [] => []
                  | x :: rest' =>
                      shown_containers collapsed (steps ++ [Index index]) x
                      ++ each (S index) rest'
                  end) 0 xs)
  | JObject es =>
      steps
      :: (if Js.has collapsed (View.path_string steps) then []
          else flat_map (fun kv => shown_containers collapsed
                                     (steps ++ [Key (fst kv)]) (snd kv)) es)
  | _ => []
  end.

Fixpoint shown_items (collapsed : list string) (steps : list step)
         (index : nat) (rest : list JsonValue) : list (list step) :=
  match rest with
  | [] => []
  | x :: rest' =>
      shown_containers collapsed (steps ++ [Index index]) x
      ++ shown_items collapsed steps (S index) rest'
  end.

(** A key that holds neither a dot nor an opening bracket. *)
Fixpoint plain_key (k : string) : bool :=
  match k with
  | EmptyString => true
  | String c k' =>
      negb (Ascii.eqb c ".") && negb (Ascii.eqb c "[") && plain_key k'
  end.

Definition plain_step (s : step) : bool :=
  match s with Key k => plain_key k | Index _ => true end.

(** Every key of the value is plain. *)
Fixpoint plain_keys (v : JsonValue) : bool :=
  match v with
  | JArray xs => forallb plain_keys xs
  | JObject es =>
      forallb (fun kv => plain_key (fst kv) && plain_keys (snd kv)) es
  | _ => true
  end.

(* ================================================================== *)
(** ** The component's state and its handlers

    The state of [Home] is a record of its [useState] cells; a handler
    is the state it leaves.  [JSON.parse] (with the message of the error
    it throws), the two uses of [JSON.stringify(_, null, 2)] and
    [Number.parseInt(_, 10)] are parameters; the latter gives the
    integer it returns, for the limit texts whose integer is a Number
    exactly, and nothing for [NaN].  So are the errors thrown inside the
    [try] block of [handleGenerateSchema] after parsing, and what the
    block comes to on a value with a key of [Object.prototype]. *)

Module App.

Inductive OutputMode : Type := ModeTrim | ModeSchema.

(** What [outputValue] holds: a value ([null] included), the schema
    stored by the cast [schema as JsonValue], or an object that is
    neither (what [generateSchema] may return for a value with a key of
    [Object.prototype]). *)
Inductive Shown : Type :=
| ShownValue (v : JsonValue)
| ShownSchema (s : JsonSchema)
| ShownOther.

Record State : Type := mkState {
  input : string;
  output : string;
  outputValue : Shown;
  arrayLimit : string;
  error : option string;
  copyLabel : string;
  collapsedPaths : list string;
  outputMode : OutputMode
}.

Section Handlers.
Variable Number_parseInt : string -> option Z.
Variable JSON_parse : string -> string + JsonValue.
Variable JSON_stringify : JsonValue -> string.
Variable JSON_stringify_schema : JsonSchema -> string.
Variable generateSchema_thrown : JsonValue -> option string.
Variable generateSchema_beyond : JsonValue -> string * Shown.

(** [parsedLimit]. *)
Definition parsedLimit (arrayLimit : string) : option Z :=
  match Number_parseInt arrayLimit with
  | None => None
  | Some parsed => Some (Z.max parsed 0)
  end.

(** The three updates of a failed run: [setError], [setOutput("")],
    [setOutputValue(null)]. *)
Definition failed (s : State) (message : string) : State :=
  mkState (input s) "" (ShownValue JNull) (arrayLimit s) (Some message)
          (copyLabel s) (collapsedPaths s) (outputMode s).

(** [handleTrim]. *)
Definition handleTrim (s : State) : State :=
  match parsedLimit (arrayLimit s) with
  | None => failed s "Provide a valid number of items for arrays."
  | Some limit =>
      match JSON_parse (input s) with
      | inr parsed =>
          let trimmed := trimStructure parsed limit in
          mkState (input s) (JSON_stringify trimmed) (ShownValue trimmed)
                  (arrayLimit s) None (copyLabel s) [] ModeTrim
      | inl message => failed s ("JSON error: " ++ message)%string
      end
  end.

(** What [generateSchema(parsed)] and [JSON.stringify(schema, null, 2)]
    come to inside the [try] block: the text and the object to show, or
    the message of the error thrown.  The calls throw when their
    recursion exhausts the call stack on a deeply nested value, and they
    may throw on a value with a key of [Object.prototype] (the call [new
    Set(left.required)] on a [required] that is no array); the
    parameter [generateSchema_thrown] tells for which values, and with
    which message.  Where the calls return, the result is the embedded
    [generateSchema] on a value with ordinary keys; on the others, where
    the code reads or writes [Object.prototype] and may return an object
    that is no schema, it is the parameter [generateSchema_beyond]. *)
Definition generated (parsed : JsonValue) : string + string * Shown :=
  match generateSchema_thrown parsed with
  | Some message => inl message
  | None =>
      if ordinary_keys parsed
      then let schema := generateSchema parsed in
           inr (JSON_stringify_schema schema, ShownSchema schema)
      else inr (generateSchema_beyond parsed)
  end.

(** [handleGenerateSchema]: the [catch] takes what [JSON.parse] throws
    and what the two calls after it throw. *)
Definition handleGenerateSchema (s : State) : State :=
  match JSON_parse (input s) with
  | inr parsed =>
      match generated parsed with
      | inr (text, shown) =>
          mkState (input s) text shown (arrayLimit s) None (copyLabel s) []
                  ModeSchema
      | inl message => failed s ("JSON error: " ++ message)%string
      end
  | inl message => failed s ("JSON error: " ++ message)%string
  end.

(** The update [setInput(text)]. *)
Definition setInput (text : string) (s : State) : State :=
  mkState text (output s) (outputValue s) (arrayLimit s) (error s)
          (copyLabel s) (collapsedPaths s) (outputMode s).

(** [handleFormatInput]. *)
Definition handleFormatInput (s : State) : State :=
  match JSON_parse (input s) with
  | inr parsed =>
      mkState (JSON_stringify parsed) (output s) (outputValue s)
              (arrayLimit s) None (copyLabel s) (collapsedPaths s)
              (outputMode s)
  | inl message =>
      mkState (input s) (output s) (outputValue s) (arrayLimit s)
              (Some ("JSON error: " ++ message)%string) (copyLabel s)
              (collapsedPaths s) (outputMode s)
  end.
End Handlers.

End App.
(* ================================================================== *)
(** ** Facts about the run-time model *)

Module JsFacts.
Import Js.

Lemma has_In xs x : has xs x = true <-> In x xs.
Proof.
  unfold has. rewrite existsb_exists. split.
  - intros [y [Hy E]]. apply String.eqb_eq in E. now subst.
  - intros H. exists x. split; [assumption | apply String.eqb_refl].
Qed.

Lemma has_false xs x : has xs x = false <-> ~ In x xs.
Proof.
  rewrite <- has_In. destruct (has xs x); split; intros; congruence.
Qed.

Lemma has_app xs ys x : has (xs ++ ys) x = has xs x || has ys x.
Proof. unfold has. apply existsb_app. Qed.

(** *** [Set] construction *)

Lemma set_add_In acc x y : In y (set_add acc x) <-> In y acc \/ y = x.
Proof.
  unfold set_add. destruct (has acc x) eqn:E.
  - apply has_In in E. split; [tauto | intros [H | ->]; assumption].
  - rewrite in_app_iff. simpl. intuition congruence.
Qed.

Lemma set_add_NoDup acc x : NoDup acc -> NoDup (set_add acc x).
Proof.
  intros H. unfold set_add. destruct (has acc x) eqn:E; [assumption|].
  apply has_false in E.
  apply NoDup_rev in H. rewrite <- (rev_involutive (acc ++ [x])).
  apply NoDup_rev. rewrite rev_app_distr. simpl. constructor.
  - now rewrite <- in_rev.
  - assumption.
Qed.

Lemma fold_set_add_In xs : forall acc y,
  In y (fold_left set_add xs acc) <-> In y acc \/ In y xs.
Proof.
  induction xs as [|x xs IH]; intros acc y; simpl.
  - tauto.
  - rewrite IH, set_add_In. intuition congruence.
Qed.

Lemma fold_set_add_NoDup xs : forall acc,
  NoDup acc -> NoDup (fold_left set_add xs acc).
Proof.
  induction xs as [|x xs IH]; intros acc H; simpl; [assumption|].
  apply IH, set_add_NoDup, H.
Qed.

Lemma set_from_In xs y : In y (set_from xs) <-> In y xs.
Proof. unfold set_from. rewrite fold_set_add_In. simpl. tauto. Qed.

Lemma set_from_NoDup xs : NoDup (set_from xs).
Proof. apply fold_set_add_NoDup. constructor. Qed.


(** *** [slice] *)

Lemma slice_end_nonneg {A} (xs : list A) (n : Z) :
  (0 <= n)%Z -> slice_end xs n = Nat.min (Z.to_nat n) (length xs).
Proof.
  intros H. unfold slice_end.
  destruct (Z.ltb_spec n 0); lia.
Qed.

Lemma slice_end_le {A} (xs : list A) (n : Z) : slice_end xs n <= length xs.
Proof.
  unfold slice_end. destruct (Z.ltb_spec n 0); lia.
Qed.

Lemma slice0_length {A} (xs : list A) (n : Z) :
  length (slice0 xs n) = slice_end xs n.
Proof.
  unfold slice0. rewrite length_firstn. pose proof (slice_end_le xs n). lia.
Qed.

Lemma slice0_all {A} (xs : list A) (n : Z) :
  (Z.of_nat (length xs) <= n)%Z -> slice0 xs n = xs.
Proof.
  intros H. unfold slice0. rewrite slice_end_nonneg by lia.
  apply firstn_all2. lia.
Qed.

Lemma firstn_In {A} (x : A) : forall n xs, In x (firstn n xs) -> In x xs.
Proof.
  induction n as [|n IH]; intros [|y ys]; simpl; try tauto.
  intros [->|H]; [now left | right; now apply IH].
Qed.

(** *** Objects *)

Section ObjectFacts.
Context {V : Type}.
Implicit Types (o : obj V) (k : string) (v : V).

Lemma obj_get_None o k : obj_get o k = None <-> ~ In k (keys o).
Proof.
  induction o as [|[k' w] o IH]; simpl; [tauto|].
  destruct (String.eqb_spec k' k).
  - split; [discriminate | intros H; exfalso; apply H; now left].
  - rewrite IH. intuition congruence.
Qed.

Lemma obj_get_In o k v : obj_get o k = Some v -> In (k, v) o.
Proof.
  induction o as [|[k' w] o IH]; simpl; [discriminate|].
  destruct (String.eqb_spec k' k).
  - intros [= ->]. subst. now left.
  - intros H. right. now apply IH.
Qed.

Lemma obj_get_replace o k v k' :
  obj_get (obj_replace o k v) k' =
  if String.eqb k k' then (if has_key o k then Some v else None)
  else obj_get o k'.
Proof.
  induction o as [|[k0 w] o IH]; simpl.
  - now destruct (String.eqb k k').
  - unfold has_key in *. simpl. rewrite (String.eqb_sym k k0).
    destruct (String.eqb_spec k0 k) as [->|Hne]; simpl.
    + now destruct (String.eqb k k').
    + rewrite IH. destruct (String.eqb_spec k k') as [E|Hne'].
      * subst k'. destruct (String.eqb_spec k0 k); [congruence | reflexivity].
      * reflexivity.
Qed.

Lemma obj_get_create o k v k' :
  has_key o k = false ->
  obj_get (obj_create o k v) k' =
  if String.eqb k k' then Some v else obj_get o k'.
Proof.
  induction o as [|[k0 w] o IH]; simpl; intros H; [reflexivity|].
  unfold has_key in *. simpl in H.
  apply orb_false_iff in H. destruct H as [H0 H].
  destruct (key_before k0 k); simpl.
  - rewrite IH by assumption.
    destruct (String.eqb_spec k k') as [->|Hne]; [|reflexivity].
    rewrite String.eqb_sym in H0. now rewrite H0.
  - reflexivity.
Qed.

Lemma obj_get_set o k v k' :
  obj_get (obj_set o k v) k' =
  if String.eqb k k' then Some v else obj_get o k'.
Proof.
  unfold obj_set. destruct (has_key o k) eqn:E.
  - rewrite obj_get_replace, E. reflexivity.
  - now apply obj_get_create.
Qed.

(** A freshly created last key goes to the end. *)
Lemma obj_create_last o k v :
  forallb (fun k' => key_before k' k) (keys o) = true ->
  obj_create o k v = o ++ [(k, v)].
Proof.
  induction o as [|[k0 w] o IH]; simpl; [reflexivity|].
  intros H. apply andb_true_iff in H. destruct H as [H0 H].
  rewrite H0, IH by assumption. reflexivity.
Qed.

Lemma ordered_keys_mid (l1 : list string) k l2 :
  ordered_keys (l1 ++ k :: l2) = true ->
  has l1 k = false /\ forallb (fun k' => key_before k' k) l1 = true.
Proof.
  induction l1 as [|a l1 IH]; simpl; [auto|].
  intros H. apply andb_true_iff in H. destruct H as [H H2].
  apply andb_true_iff in H. destruct H as [H0 H1].
  destruct (IH H2) as [IHa IHb].
  apply negb_true_iff in H0. rewrite has_app in H0.
  apply orb_false_iff in H0. destruct H0 as [_ H0]. simpl in H0.
  apply orb_false_iff in H0. destruct H0 as [H0 _].
  rewrite forallb_app in H1. apply andb_true_iff in H1.
  destruct H1 as [_ H1]. simpl in H1.
  apply andb_true_iff in H1. destruct H1 as [H1 _].
  rewrite String.eqb_sym, H0, IHa, H1, IHb. auto.
Qed.

Lemma fold_obj_set_ordered (es : list (string * V)) : forall acc,
  is_object (acc ++ es) = true ->
  fold_left (fun o kv => obj_set o (fst kv) (snd kv)) es acc = acc ++ es.
Proof.
  induction es as [|[k v] es IH]; intros acc H; simpl.
  - now rewrite app_nil_r.
  - assert (E : obj_set acc k v = acc ++ [(k, v)]).
    { unfold is_object, keys in H. rewrite map_app in H. simpl in H.
      apply ordered_keys_mid in H. destruct H as [Hk Hb].
      unfold obj_set, has_key, keys. rewrite Hk.
      now apply obj_create_last. }
    rewrite E, IH; rewrite <- app_assoc; simpl; [reflexivity | assumption].
Qed.

(** Rebuilding an object from its own entries gives it back. *)
Lemma fromEntries_object (es : list (string * V)) :
  is_object es = true -> fromEntries es = es.
Proof. intros H. unfold fromEntries. now rewrite fold_obj_set_ordered. Qed.

Lemma keys_replace o k v : keys (obj_replace o k v) = keys o.
Proof.
  induction o as [|[k0 w] o IH]; simpl; [reflexivity|].
  destruct (String.eqb k0 k); simpl; [reflexivity | now rewrite IH].
Qed.

Lemma keys_create o k v : Permutation (keys (obj_create o k v)) (k :: keys o).
Proof.
  induction o as [|[k0 w] o IH]; simpl; [reflexivity|].
  destruct (key_before k0 k); simpl; [|reflexivity].
  rewrite IH. apply perm_swap.
Qed.

Lemma keys_set_NoDup o k v : NoDup (keys o) -> NoDup (keys (obj_set o k v)).
Proof.
  intros H. unfold obj_set. destruct (has_key o k) eqn:E.
  - now rewrite keys_replace.
  - apply (Permutation_NoDup (l := k :: keys o)).
    + symmetry. apply keys_create.
    + constructor; [|assumption]. now apply has_false.
Qed.

Lemma obj_set_Forall (Q : string * V -> Prop) o k v :
  Forall Q o -> Q (k, v) -> Forall Q (obj_set o k v).
Proof.
  intros H Hq. unfold obj_set. destruct (has_key o k).
  - induction H as [|[k0 w] o H0 H IH]; simpl; [constructor|].
    destruct (String.eqb_spec k0 k).
    + subst. now constructor.
    + now constructor.
  - induction H as [|[k0 w] o H0 H IH]; simpl; [now repeat constructor|].
    destruct (key_before k0 k); now repeat constructor.
Qed.

Section Filled.
Variable f : string -> V.

Lemma obj_get_fill ks : forall acc k,
  obj_get (fill f ks acc) k =
  if has ks k then Some (f k) else obj_get acc k.
Proof.
  unfold fill.
  induction ks as [|x ks IH]; intros acc k; simpl; [reflexivity|].
  rewrite IH, obj_get_set. unfold has. simpl.
  rewrite (String.eqb_sym k x).
  destruct (existsb (String.eqb k) ks); [now rewrite orb_true_r|].
  rewrite orb_false_r.
  destruct (String.eqb_spec x k); [now subst | reflexivity].
Qed.

Lemma keys_fill_NoDup ks : forall acc,
  NoDup (keys acc) -> NoDup (keys (fill f ks acc)).
Proof.
  unfold fill.
  induction ks as [|x ks IH]; intros acc H; simpl; [assumption|].
  apply IH, keys_set_NoDup, H.
Qed.

Lemma keys_fill_In ks k : In k (keys (fill f ks [])) <-> In k ks.
Proof.
  rewrite <- (has_In ks k).
  pose proof (obj_get_None (fill f ks []) k) as H.
  rewrite obj_get_fill in H. cbn [obj_get] in H.
  destruct (has ks k).
  - split; [reflexivity|]. intros _.
    destruct (in_dec string_dec k (keys (fill f ks []))) as [i|n];
      [exact i|].
    apply H in n. discriminate.
  - split; [|discriminate]. intros Hin. exfalso.
    destruct H as [H _]. apply H; [reflexivity | exact Hin].
Qed.

Lemma fill_Forall (Q : string * V -> Prop) ks : forall acc,
  Forall Q acc -> (forall k, In k ks -> Q (k, f k)) ->
  Forall Q (fill f ks acc).
Proof.
  unfold fill.
  induction ks as [|x ks IH]; intros acc H Hq; simpl; [assumption|].
  apply IH.
  - apply obj_set_Forall; [assumption | apply Hq; now left].
  - intros k Hk. apply Hq. now right.
Qed.
End Filled.
End ObjectFacts.

Lemma obj_get_map {V W} (f : V -> W) (o : obj V) k :
  obj_get (map (fun kv => (fst kv, f (snd kv))) o) k =
  option_map f (obj_get o k).
Proof.
  induction o as [|[k' w] o IH]; simpl; [reflexivity|].
  now destruct (String.eqb k' k).
Qed.

Lemma keys_map {V W} (f : V -> W) (o : obj V) :
  keys (map (fun kv => (fst kv, f (snd kv))) o) = keys o.
Proof. unfold keys. rewrite map_map. reflexivity. Qed.

End JsFacts.

(* ================================================================== *)
(** ** The trimmer *)

Module TrimFacts.
Import Js JsFacts.

Lemma trimStructure_array items n :
  trimStructure (JArray items) n =
  JArray (map (fun item => trimStructure item n) (slice0 items n)).
Proof.
  unfold slice0. simpl. f_equal.
  generalize (slice_end items n) as c.
  induction items as [|x xs IH]; intros [|c]; simpl; try reflexivity.
  now rewrite IH.
Qed.

(** On an object node [Object.fromEntries] lays the entries out as they
    came. *)
Lemma trimStructure_object es n :
  is_object es = true ->
  trimStructure (JObject es) n =
  JObject (map (fun kv => (fst kv, trimStructure (snd kv) n)) es).
Proof.
  intros H. cbn [trimStructure]. f_equal. apply fromEntries_object.
  unfold is_object. now rewrite (keys_map (fun c => trimStructure c n)).
Qed.

Lemma trimStructure_scalar v n : is_scalar v = true -> trimStructure v n = v.
Proof. destruct v; simpl; congruence. Qed.

Lemma trimStructure_kind v n : kind (trimStructure v n) = kind v.
Proof. destruct v; reflexivity. Qed.

Lemma well_formed_array items :
  well_formed (JArray items) = true <-> Forall (fun x => well_formed x = true) items.
Proof. simpl. rewrite forallb_forall, Forall_forall. reflexivity. Qed.

Lemma well_formed_object es :
  well_formed (JObject es) = true <->
  is_object es = true /\ Forall (fun kv => well_formed (snd kv) = true) es.
Proof.
  simpl. rewrite andb_true_iff, forallb_forall, Forall_forall. reflexivity.
Qed.

Lemma trimStructure_well_formed v n :
  well_formed v = true -> well_formed (trimStructure v n) = true.
Proof.
  induction v as [| | | |items IH|es IH] using JsonValue_ind; intros W; try exact W.
  - rewrite trimStructure_array. apply well_formed_array.
    apply well_formed_array in W. apply Forall_map.
    rewrite Forall_forall in *. intros x Hx.
    apply firstn_In in Hx. auto.
  - apply well_formed_object in W. destruct W as [Ho W].
    rewrite trimStructure_object by assumption.
    apply well_formed_object. split.
    + unfold is_object. now rewrite (keys_map (fun c => trimStructure c n)).
    + apply Forall_map. simpl.
      rewrite Forall_forall in *. intros kv Hkv. auto.
Qed.

(** Trimming commutes with following a path: whatever sits at a path of
    the trimmed value is the trimmed node found at the same path of the
    original. *)
Lemma node_at_trimStructure n path : forall v x',
  well_formed v = true ->
  node_at (trimStructure v n) path = Some x' ->
  exists x, node_at v path = Some x /\ well_formed x = true
            /\ x' = trimStructure x n.
Proof.
  induction path as [|[k|i] path IH]; intros v x' W H.
  - simpl in H. injection H as <-. exists v. auto.
  - destruct v as [| | | |items|es]; try discriminate.
    apply well_formed_object in W. destruct W as [Ho W].
    rewrite trimStructure_object in H by assumption. simpl in H.
    rewrite (obj_get_map (fun c => trimStructure c n)) in H. simpl.
    destruct (obj_get es k) as [child|] eqn:E; [|discriminate].
    simpl in H. apply IH; [|assumption].
    apply obj_get_In in E. rewrite Forall_forall in W. apply (W _ E).
  - destruct v as [| | | |items|es]; try discriminate.
    apply well_formed_array in W.
    rewrite trimStructure_array in H. simpl in H.
    rewrite nth_error_map in H. simpl.
    destruct (nth_error (slice0 items n) i) as [child|] eqn:E; [|discriminate].
    simpl in H. unfold slice0 in E.
    assert (E' : nth_error items i = Some child).
    { rewrite nth_error_firstn in E.
      destruct (i <? slice_end items n)%nat; [assumption | discriminate]. }
    rewrite E'. apply IH; [|assumption].
    apply nth_error_In in E'. rewrite Forall_forall in W. auto.
Qed.

(** Nodes reached through object keys alone are never dropped. *)
Lemma node_at_keys_trimStructure n path : forall v x,
  well_formed v = true ->
  forallb is_key path = true ->
  node_at v path = Some x ->
  node_at (trimStructure v n) path = Some (trimStructure x n).
Proof.
  induction path as [|[k|i] path IH]; intros v x W K H; try discriminate.
  - simpl in H. injection H as <-. reflexivity.
  - destruct v as [| | | |items|es]; try discriminate.
    apply well_formed_object in W. destruct W as [Ho W].
    rewrite trimStructure_object by assumption. simpl in *.
    rewrite (obj_get_map (fun c => trimStructure c n)).
    destruct (obj_get es k) as [child|] eqn:E; [|discriminate].
    simpl. apply IH; try assumption.
    apply obj_get_In in E. rewrite Forall_forall in W. apply (W _ E).
Qed.

(** Nodes reached through indices below the limit are never dropped,
    and no other node is kept. *)
Lemma node_at_below_trimStructure n path : forall v x,
  well_formed v = true ->
  (0 <= n)%Z ->
  forallb (index_below n) path = true ->
  node_at v path = Some x ->
  node_at (trimStructure v n) path = Some (trimStructure x n).
Proof.
  induction path as [|[k|i] path IH]; intros v x W Hn K H.
  - simpl in H. injection H as <-. reflexivity.
  - destruct v as [| | | |items|es]; try discriminate.
    apply well_formed_object in W. destruct W as [Ho W].
    rewrite trimStructure_object by assumption. simpl in *.
    rewrite (obj_get_map (fun c => trimStructure c n)).
    destruct (obj_get es k) as [child|] eqn:E; [|discriminate].
    simpl. apply IH; try assumption.
    apply obj_get_In in E. rewrite Forall_forall in W. apply (W _ E).
  - destruct v as [| | | |items|es]; try discriminate.
    apply well_formed_array in W.
    rewrite trimStructure_array. simpl in *.
    apply andb_true_iff in K. destruct K as [Hi K].
    apply Z.ltb_lt in Hi.
    destruct (nth_error items i) as [child|] eqn:E; [|discriminate].
    assert (Hlen : i < length items).
    { apply nth_error_Some. rewrite E. discriminate. }
    rewrite nth_error_map. unfold slice0. rewrite nth_error_firstn.
    rewrite slice_end_nonneg by assumption.
    destruct (Nat.ltb_spec i (Nat.min (Z.to_nat n) (length items))); [|lia].
    rewrite E. simpl. apply IH; try assumption.
    apply nth_error_In in E. rewrite Forall_forall in W. auto.
Qed.

Lemma node_at_trimStructure_below n path : forall v x',
  well_formed v = true ->
  (0 <= n)%Z ->
  node_at (trimStructure v n) path = Some x' ->
  forallb (index_below n) path = true.
Proof.
  induction path as [|[k|i] path IH]; intros v x' W Hn H; [reflexivity| |].
  - destruct v as [| | | |items|es]; try discriminate.
    apply well_formed_object in W. destruct W as [Ho W].
    rewrite trimStructure_object in H by assumption. simpl in H.
    rewrite (obj_get_map (fun c => trimStructure c n)) in H.
    destruct (obj_get es k) as [child|] eqn:E; [|discriminate].
    simpl in H. cbn [forallb index_below andb].
    apply (IH child x'); try assumption.
    apply obj_get_In in E. rewrite Forall_forall in W. apply (W _ E).
  - destruct v as [| | | |items|es]; try discriminate.
    apply well_formed_array in W.
    rewrite trimStructure_array in H. simpl in H.
    rewrite nth_error_map in H.
    destruct (nth_error (slice0 items n) i) as [child|] eqn:E; [|discriminate].
    simpl in H. unfold slice0 in E. rewrite nth_error_firstn in E.
    rewrite slice_end_nonneg in E by assumption.
    destruct (Nat.ltb_spec i (Nat.min (Z.to_nat n) (length items)));
      [|discriminate].
    cbn [forallb index_below]. apply andb_true_iff. split.
    + apply Z.ltb_lt. lia.
    + apply (IH child x'); try assumption.
      apply nth_error_In in E. rewrite Forall_forall in W. auto.
Qed.

Lemma firstn_min {A} (xs : list A) (n : nat) :
  firstn (Nat.min n (length xs)) xs = firstn n xs.
Proof.
  destruct (Nat.le_gt_cases n (length xs)).
  - now rewrite Nat.min_l.
  - rewrite Nat.min_r by lia. now rewrite firstn_all, firstn_all2 by lia.
Qed.

Lemma max_array_len_array items :
  max_array_len (JArray items) <= 0 + max_array_len (JArray items) /\
  length items <= max_array_len (JArray items) /\
  Forall (fun x => max_array_len x <= max_array_len (JArray items)) items.
Proof.
  split; [lia|]. simpl. split; [lia|].
  apply Forall_forall. intros x Hx.
  enough (max_array_len x <=
          fold_right (fun item m => Nat.max (max_array_len item) m) 0 items)
    by lia.
  induction items as [|y ys IH]; [destruct Hx|]. simpl.
  destruct Hx as [->|Hx]; [lia|]. specialize (IH Hx). lia.
Qed.

Lemma max_array_len_object es :
  Forall (fun kv => max_array_len (snd kv) <= max_array_len (JObject es)) es.
Proof.
  apply Forall_forall. intros kv Hkv. simpl.
  induction es as [|y ys IH]; [destruct Hkv|]. simpl.
  destruct Hkv as [->|Hkv]; [lia|]. specialize (IH Hkv). lia.
Qed.

Lemma map_fixed {A} (f : A -> A) (l : list A) :
  Forall (fun x => f x = x) l -> map f l = l.
Proof. induction 1; simpl; congruence. Qed.

(** A limit that no array exceeds changes nothing. *)
Lemma trimStructure_large_limit v n :
  well_formed v = true ->
  (Z.of_nat (max_array_len v) <= n)%Z ->
  trimStructure v n = v.
Proof.
  induction v as [| | | |items IH|es IH] using JsonValue_ind; intros W L; try reflexivity.
  - rewrite trimStructure_array. apply well_formed_array in W.
    destruct (max_array_len_array items) as [_ [Hlen Hall]].
    rewrite slice0_all by lia. f_equal. apply map_fixed.
    rewrite Forall_forall in *. intros x Hx.
    apply IH; auto. specialize (Hall x Hx). lia.
  - apply well_formed_object in W. destruct W as [Ho W].
    rewrite trimStructure_object by assumption. f_equal.
    pose proof (max_array_len_object es) as Hall.
    apply map_fixed. rewrite Forall_forall in *. intros [k c] Hkv.
    simpl. f_equal. apply (IH _ Hkv); [apply (W _ Hkv)|].
    specialize (Hall _ Hkv). cbn [snd] in *. lia.
Qed.

Lemma trimStructure_idem v n :
  well_formed v = true -> (0 <= n)%Z ->
  trimStructure (trimStructure v n) n = trimStructure v n.
Proof.
  intros W Hn. induction v as [| | | |items IH|es IH] using JsonValue_ind; try reflexivity.
  - apply well_formed_array in W.
    rewrite trimStructure_array, trimStructure_array.
    rewrite slice0_all.
    + f_equal. rewrite map_map. apply map_ext_in. intros x Hx.
      unfold slice0 in Hx. apply firstn_In in Hx.
      rewrite Forall_forall in *. auto.
    + rewrite length_map, slice0_length, slice_end_nonneg by assumption. lia.
  - apply well_formed_object in W. destruct W as [Ho W].
    rewrite trimStructure_object by assumption.
    rewrite trimStructure_object by (unfold is_object; now rewrite (keys_map (fun c => trimStructure c n))).
    f_equal. rewrite map_map. apply map_ext_in. intros [k c] Hkv. simpl.
    f_equal. rewrite Forall_forall in *. apply (IH _ Hkv). apply (W _ Hkv).
Qed.

Lemma trimStructure_arrays_within v n :
  well_formed v = true -> (0 <= n)%Z ->
  arrays_within n (trimStructure v n) = true.
Proof.
  intros W Hn.
  induction v as [| | | |xs IH|es IH] using JsonValue_ind; try reflexivity.
  - apply well_formed_array in W.
    rewrite trimStructure_array. cbn [arrays_within].
    apply andb_true_iff. split.
    + apply Z.leb_le.
      rewrite length_map, slice0_length, slice_end_nonneg by assumption. lia.
    + apply forallb_forall. intros y Hy.
      apply in_map_iff in Hy. destruct Hy as [x [<- Hx]].
      apply firstn_In in Hx. rewrite Forall_forall in *. auto.
  - apply well_formed_object in W. destruct W as [Ho W].
    rewrite trimStructure_object by assumption. cbn [arrays_within].
    apply forallb_forall. intros kv' Hkv'.
    apply in_map_iff in Hkv'. destruct Hkv' as [kv [<- Hkv]]. cbn [snd].
    rewrite Forall_forall in *. auto.
Qed.

(** The end-to-end scenario: with limit 1 the [users] array keeps its
    first element and its [roles] array one role. *)
Example trimStructure_users :
  trimStructure Samples.users 1
  = JObject
      [("users",
        JArray
          [JObject [("id", Samples.num 1); ("name", JString "Ada");
                    ("roles", JArray [JString "admin"])]])].
Proof. reflexivity. Qed.

(** Below zero the limit counts from the end of each array, and a second
    pass cuts again. *)
Remark trimStructure_negative_limit :
  trimStructure (JArray [JNull; JNull; JNull]) (-1) = JArray [JNull; JNull]
  /\ trimStructure (JArray [JNull; JNull]) (-1) = JArray [JNull].
Proof. split; reflexivity. Qed.

End TrimFacts.

(* ================================================================== *)
(** ** The merger *)

Module MergeFacts.
Import Js JsFacts.

Lemma fold_left_ext {A B} (f g : A -> B -> A) (l : list B) :
  (forall a b, f a b = g a b) -> forall a, fold_left f l a = fold_left g l a.
Proof.
  intros E. induction l as [|b l IH]; intros a; simpl; [reflexivity|].
  now rewrite E, IH.
Qed.

(** The equation of [mergeSchemas] in the shape of the source, for two
    schemas that passed the guards. *)
Lemma merge_both_unfold left right :
  merge_both left right =
  let types :=
    set_from (normalizeTypes (Some left) ++ normalizeTypes (Some right)) in
  let bothObject := has (normalizeTypes (Some left)) "object"
                    && has (normalizeTypes (Some right)) "object" in
  let bothArray := has (normalizeTypes (Some left)) "array"
                   && has (normalizeTypes (Some right)) "array" in
  mkSchema None (merged_type types)
    (if bothObject
     then Some (merged_properties (nullish (properties left) [])
                                  (nullish (properties right) []))
     else None)
    (if bothArray then Some (mergeSchemas (items left) (items right)) else None)
    (if bothObject then merged_required left right else None).
Proof.
  destruct left as [d t ps it rq]. cbn [merge_both properties items nullish].
  cbv zeta. f_equal.
  match goal with |- (if ?c then _ else _) = _ => destruct c end;
    [|reflexivity].
  f_equal. unfold merged_properties.
  destruct ps as [lp|]; cbn [nullish]; apply fold_left_ext;
    intros props key; f_equal.
  generalize (obj_get (nullish (properties right) []) key) as r.
  induction lp as [|[k l] lp IH]; intros r; simpl; [reflexivity|].
  destruct (String.eqb k key); [reflexivity | apply IH].
Qed.

Lemma merge_both_type a b :
  type (merge_both a b) = merged_type (set_from (tags a ++ tags b)).
Proof. now rewrite merge_both_unfold. Qed.

Lemma merge_both_properties a b :
  properties (merge_both a b) =
  if has_tag a "object" && has_tag b "object"
  then Some (merged_properties (nullish (properties a) [])
                               (nullish (properties b) []))
  else None.
Proof. now rewrite merge_both_unfold. Qed.

Lemma merge_both_items a b :
  items (merge_both a b) =
  if has_tag a "array" && has_tag b "array"
  then Some (mergeSchemas (items a) (items b))
  else None.
Proof. now rewrite merge_both_unfold. Qed.

Lemma merge_both_required a b :
  required (merge_both a b) =
  if has_tag a "object" && has_tag b "object"
  then merged_required a b else None.
Proof. now rewrite merge_both_unfold. Qed.

Lemma merge_both_dollar a b : dollar_schema (merge_both a b) = None.
Proof. now rewrite merge_both_unfold. Qed.

Lemma has_set_from xs x : has (set_from xs) x = has xs x.
Proof.
  destruct (has xs x) eqn:E.
  - apply has_In, set_from_In, has_In, E.
  - apply has_false. rewrite set_from_In. now apply has_false.
Qed.

(** What [normalizeTypes] reads back from a [type] written by the
    merger: the tags themselves, except that a lone empty tag is lost. *)
Lemma has_merged_type types d p i r t :
  t <> "" ->
  has (tags (mkSchema d (merged_type types) p i r)) t = has types t.
Proof.
  intros Ht. unfold tags, normalizeTypes. cbn [type].
  destruct types as [|x [|y l]]; cbn [merged_type]; try reflexivity.
  destruct (String.eqb_spec x ""); [|reflexivity].
  subst. unfold has. simpl.
  destruct (String.eqb_spec t ""); [contradiction | reflexivity].
Qed.

(** The merged type set is the union of the operands' type sets. *)
Lemma has_tag_merge_both a b t :
  t <> "" ->
  has_tag (merge_both a b) t = has_tag a t || has_tag b t.
Proof.
  intros Ht. unfold has_tag at 1. rewrite merge_both_unfold. cbv zeta.
  rewrite has_merged_type by assumption.
  now rewrite has_set_from, has_app.
Qed.

Lemma merged_required_In a b k :
  In k (nullish (merged_required a b) []) <->
  In k (nullish (required a) []) /\ In k (nullish (required b) []).
Proof.
  unfold merged_required.
  set (f := filter _ _).
  assert (E : In k f <->
              In k (nullish (required a) []) /\ In k (nullish (required b) [])).
  { unfold f. rewrite filter_In, set_from_In, has_In, set_from_In. tauto. }
  destruct f; exact E.
Qed.

Lemma merged_required_NoDup a b : NoDup (nullish (merged_required a b) []).
Proof.
  unfold merged_required. set (f := filter _ _).
  assert (H : NoDup f) by (apply NoDup_filter, set_from_NoDup).
  destruct f; [constructor | exact H].
Qed.

Lemma merged_required_None a b :
  merged_required a b = None <->
  forall k, ~ (In k (nullish (required a) []) /\ In k (nullish (required b) [])).
Proof.
  split.
  - intros E k. rewrite <- merged_required_In, E. simpl. tauto.
  - intros H. pose proof (merged_required_In a b) as HI.
    unfold merged_required in *. set (f := filter _ _) in *.
    destruct f as [|x f]; [reflexivity|].
    exfalso. apply (H x), HI. now left.
Qed.

(** *** The [properties] of a merge *)

Lemma merged_properties_fill lp rp :
  merged_properties lp rp =
  fill (fun key => mergeSchemas (obj_get lp key) (obj_get rp key))
       (set_from (keys lp ++ keys rp)) [].
Proof. reflexivity. Qed.

Lemma obj_get_merged_properties lp rp k :
  obj_get (merged_properties lp rp) k =
  if has (keys lp ++ keys rp) k
  then Some (mergeSchemas (obj_get lp k) (obj_get rp k))
  else None.
Proof.
  rewrite merged_properties_fill, obj_get_fill, has_set_from. reflexivity.
Qed.

Lemma keys_merged_properties_In lp rp k :
  In k (keys (merged_properties lp rp)) <-> In k (keys lp) \/ In k (keys rp).
Proof.
  rewrite merged_properties_fill, keys_fill_In, set_from_In, in_app_iff.
  reflexivity.
Qed.

Lemma keys_merged_properties_NoDup lp rp :
  NoDup (keys (merged_properties lp rp)).
Proof.
  rewrite merged_properties_fill. apply keys_fill_NoDup. constructor.
Qed.

(** *** Properties that hold at every level *)

Lemma everywhere_eq P s :
  everywhere P s =
  P s
  && match properties s with
     | Some ps => forallb (fun kv => everywhere P (snd kv)) ps
     | None => true
     end
  && match items s with
     | Some i => everywhere P i
     | None => true
     end.
Proof. destruct s; reflexivity. Qed.

Lemma everywhere_below P s : everywhere P s = P s && below P s.
Proof. rewrite everywhere_eq. unfold below. now rewrite andb_assoc. Qed.

Lemma everywhere_property P s ps k c :
  everywhere P s = true -> properties s = Some ps -> In (k, c) ps ->
  everywhere P c = true.
Proof.
  rewrite everywhere_eq. intros H E Hin. rewrite E in H.
  apply andb_true_iff in H. destruct H as [H _].
  apply andb_true_iff in H. destruct H as [_ H].
  rewrite forallb_forall in H. apply (H _ Hin).
Qed.

Lemma everywhere_items P s i :
  everywhere P s = true -> items s = Some i -> everywhere P i = true.
Proof.
  rewrite everywhere_eq. intros H E. rewrite E in H.
  apply andb_true_iff in H. tauto.
Qed.

Lemma everywhere_empty P :
  P empty_schema = true -> everywhere P empty_schema = true.
Proof. intros H. rewrite everywhere_eq, H. reflexivity. Qed.

Section EverywhereMerge.
Variable P : JsonSchema -> bool.
Hypothesis P_merge : forall a b, P (merge_both a b) = true.
Hypothesis P_empty : P empty_schema = true.

Lemma everywhere_merge_both a : forall b,
  everywhere P a = true -> everywhere P b = true ->
  everywhere P (merge_both a b) = true.
Proof.
  induction a as [d t ps it rq IHp IHi] using JsonSchema_ind.
  intros b Ha Hb.
  rewrite everywhere_eq, P_merge, merge_both_properties, merge_both_items.
  cbn [properties items].
  apply andb_true_iff. split.
  - match goal with |- context [if ?c then _ else _] => destruct c end;
      [|reflexivity].
    simpl. apply forallb_forall. apply Forall_forall.
    rewrite merged_properties_fill.
    apply (fill_Forall _ (fun kv => everywhere P (snd kv) = true));
      [constructor|].
    intros k _. cbn [snd]. cbv beta.
    match goal with
    | |- context [mergeSchemas ?x ?y] =>
        destruct x as [l|] eqn:El; destruct y as [r|] eqn:Er
    end; cbn [mergeSchemas nullish].
    + apply obj_get_In in El, Er.
      destruct ps as [lp|]; [|destruct El]. cbn [nullish] in El.
      destruct (properties b) as [rp|] eqn:Eb; [|destruct Er].
      cbn [nullish] in Er.
      specialize (IHp lp eq_refl). rewrite Forall_forall in IHp.
      apply (IHp (k, l) El r).
      * apply (everywhere_property P _ lp k l Ha eq_refl El).
      * apply (everywhere_property P b rp k r Hb Eb Er).
    + apply obj_get_In in El.
      destruct ps as [lp|]; [|destruct El]. cbn [nullish] in El.
      apply (everywhere_property P _ lp k l Ha eq_refl El).
    + apply obj_get_In in Er.
      destruct (properties b) as [rp|] eqn:Eb; [|destruct Er].
      cbn [nullish] in Er.
      apply (everywhere_property P b rp k r Hb Eb Er).
    + now apply everywhere_empty.
  - match goal with |- context [if ?c then _ else _] => destruct c end;
      [|reflexivity].
    cbn [items].
    destruct it as [l|]; destruct (items b) as [r|] eqn:Eb;
      cbn [mergeSchemas nullish].
    + apply (IHi l eq_refl).
      * apply (everywhere_items P _ l Ha eq_refl).
      * apply (everywhere_items P b r Hb Eb).
    + apply (everywhere_items P _ l Ha eq_refl).
    + apply (everywhere_items P b r Hb Eb).
    + now apply everywhere_empty.
Qed.

Lemma everywhere_mergeSchemas a b :
  (forall x, a = Some x -> everywhere P x = true) ->
  (forall y, b = Some y -> everywhere P y = true) ->
  everywhere P (mergeSchemas a b) = true.
Proof.
  intros Ha Hb. destruct a as [x|], b as [y|]; cbn [mergeSchemas nullish];
    auto using everywhere_merge_both, everywhere_empty.
Qed.
End EverywhereMerge.

End MergeFacts.

(* ================================================================== *)
(** ** The inferrer *)

Module InferFacts.
Import Js JsFacts MergeFacts.

Lemma inferSchema_array items :
  inferSchema (JArray items) =
  mkSchema None (Some (TypeOne "array")) None
           (Some (nullish (unified items None) empty_schema)) None.
Proof. destruct items; reflexivity. Qed.

Lemma inferSchema_object es :
  inferSchema (JObject es) =
  let properties := inferred_properties es [] in
  mkSchema None (Some (TypeOne "object")) (Some properties) None
           (match keys properties with [] => None | ks => Some ks end).
Proof. cbn [inferSchema]. cbv zeta. f_equal. now destruct (keys _). Qed.

Lemma inferSchema_type v : type (inferSchema v) = Some (TypeOne (inferred_tag v)).
Proof. destruct v as [| | | |[|]|]; reflexivity. Qed.

Lemma inferred_tag_nonblank v : inferred_tag v <> "".
Proof. destruct v; simpl; try discriminate. now destruct (Number_isInteger x). Qed.

Lemma inferSchema_tags v : tags (inferSchema v) = [inferred_tag v].
Proof.
  unfold tags, normalizeTypes. rewrite inferSchema_type.
  destruct (String.eqb_spec (inferred_tag v) ""); [|reflexivity].
  now destruct (inferred_tag_nonblank v).
Qed.

Example inferSchema_empty_array :
  inferSchema (JArray [])
  = mkSchema None (Some (TypeOne "array")) None (Some empty_schema) None.
Proof. reflexivity. Qed.

Example mergeSchemas_integer_number :
  mergeSchemas (Some (type_only "integer")) (Some (type_only "number"))
  = mkSchema None (Some (TypeMany ["integer"; "number"])) None None None.
Proof. reflexivity. Qed.

Lemma inferSchema_dollar v : dollar_schema (inferSchema v) = None.
Proof. destruct v as [| | | |[|]|]; reflexivity. Qed.

Lemma inferSchema_scalar v :
  is_scalar v = true -> inferSchema v = type_only (inferred_tag v).
Proof. destruct v; simpl; congruence. Qed.

Lemma inferred_properties_Forall (Q : string * JsonSchema -> Prop) es :
  forall acc,
    Forall Q acc ->
    Forall (fun kv => Q (fst kv, inferSchema (snd kv))) es ->
    Forall Q (inferred_properties es acc).
Proof.
  unfold inferred_properties.
  induction es as [|kv es IH]; intros acc Ha He; simpl; [assumption|].
  inversion He; subst. apply IH; [|assumption].
  now apply obj_set_Forall.
Qed.

Section EverywhereInfer.
Variable P : JsonSchema -> bool.
Hypothesis P_merge : forall a b, P (merge_both a b) = true.
Hypothesis P_empty : P empty_schema = true.
Hypothesis P_infer : forall v, P (inferSchema v) = true.

Lemma everywhere_unified items : forall acc,
  (forall x, acc = Some x -> everywhere P x = true) ->
  Forall (fun item => everywhere P (inferSchema item) = true) items ->
  forall x, unified items acc = Some x -> everywhere P x = true.
Proof.
  unfold unified.
  induction items as [|item items IH]; intros acc Ha Hi x; simpl.
  - apply Ha.
  - inversion Hi; subst. apply IH; [|assumption].
    intros y [= <-]. apply everywhere_mergeSchemas; try assumption.
    now intros z [= <-].
Qed.

Lemma everywhere_inferSchema v : everywhere P (inferSchema v) = true.
Proof.
  induction v as [| | | |xs IH|es IH] using JsonValue_ind;
    try (rewrite everywhere_eq, P_infer; reflexivity).
  - rewrite everywhere_eq, P_infer, inferSchema_array. cbn [properties items].
    destruct (unified xs None) as [x|] eqn:E; cbn [nullish andb].
    + apply (everywhere_unified xs None); try assumption. discriminate.
    + now apply everywhere_empty.
  - rewrite everywhere_eq, P_infer, inferSchema_object. cbv zeta.
    cbn [properties items]. rewrite andb_true_r. cbn [andb].
    apply forallb_forall. apply Forall_forall.
    apply (inferred_properties_Forall
             (fun kv => everywhere P (snd kv) = true)); [constructor|].
    exact IH.
Qed.
End EverywhereInfer.

End InferFacts.

(* ================================================================== *)
(** ** Schemas alike up to order *)

Module AlikeFacts.
Import Js JsFacts MergeFacts.

Lemma opt_rel_refl_on {A} (R : A -> A -> Prop) (x : option A) :
  (forall a, x = Some a -> R a a) -> opt_rel R x x.
Proof. intros H. destruct x; constructor. now apply H. Qed.

Lemma type_alike_refl t : type_alike t t.
Proof. destruct t; constructor. reflexivity. Qed.

Lemma schema_alike_refl s : schema_alike s s.
Proof.
  induction s as [d t ps it rq IHp IHi] using JsonSchema_ind.
  constructor; cbn [dollar_schema type properties items required].
  - reflexivity.
  - apply opt_rel_refl_on. intros; apply type_alike_refl.
  - apply opt_rel_refl_on. intros p ->. constructor; [reflexivity|].
    intros k. apply opt_rel_refl_on. intros c E.
    apply obj_get_In in E. specialize (IHp p eq_refl).
    rewrite Forall_forall in IHp. apply (IHp _ E).
  - apply opt_rel_refl_on. intros i ->. now apply IHi.
  - apply opt_rel_refl_on. reflexivity.
Qed.







End AlikeFacts.

(* ================================================================== *)
(** ** Numbers *)

Module NumberFacts.

Lemma Qmult_inv_shift (q z d : Q) :
  (~ d == 0)%Q -> (q * / d == z <-> q == z * d)%Q.
Proof.
  intros Hd. split; intros H.
  - rewrite <- H. field. exact Hd.
  - rewrite H. field. exact Hd.
Qed.

Lemma finite_value_integral (M e : Z) :
  (exists z : Z, (inject_Z M * Qpower 2 e == inject_Z z)%Q) <->
  (0 <= e \/ (2 ^ (- e) | M))%Z.
Proof.
  destruct (Z.leb_spec 0 e) as [He|He].
  - split; [auto|]. intros _. exists (M * 2 ^ e)%Z.
    rewrite inject_Z_mult, Zpower_Qpower by assumption. reflexivity.
  - assert (Hd : (0 < 2 ^ (- e))%Z). { apply Z.pow_pos_nonneg; lia. }
    assert (E : (Qpower 2 e == / inject_Z (2 ^ (- e)))%Q).
    { assert (X : (0 <= - e)%Z) by lia. rewrite (Zpower_Qpower 2 (- e) X). rewrite Qpower_opp.
      change (inject_Z 2) with 2%Q. rewrite Qinv_involutive. reflexivity. }
    assert (Hq : (~ inject_Z (2 ^ (- e)) == 0)%Q).
    { change 0%Q with (inject_Z 0). rewrite inject_Z_injective. lia. }
    split.
    + intros [z Hz]. right. exists z.
      rewrite E in Hz. apply Qmult_inv_shift in Hz; [|assumption].
      rewrite <- inject_Z_mult in Hz. exact (proj1 (inject_Z_injective _ _) Hz).
    + intros [H|[z Hz]]; [lia|]. exists z.
      rewrite E. apply Qmult_inv_shift; [assumption|].
      rewrite <- inject_Z_mult. exact (proj2 (inject_Z_injective _ _) Hz).
Qed.

Lemma Number_isInteger_integral x : Number_isInteger x = true <-> integral x.
Proof.
  unfold integral. destruct x as [s|s| |s m e]; simpl.
  - split; [|reflexivity]. intros _. exists 0%Q, 0%Z. split; reflexivity.
  - split; [discriminate|]. intros [q [z [H _]]]. discriminate.
  - split; [discriminate|]. intros [q [z [H _]]]. discriminate.
  - set (M := if s then Z.neg m else Z.pos m).
    assert (Hdiv : forall d, ((d | M) <-> (d | Z.pos m))%Z).
    { intros d. unfold M. destruct s; [|reflexivity].
      change (Z.neg m) with (- Z.pos m)%Z. apply Z.divide_opp_r. }
    pose proof (finite_value_integral M e) as HI.
    destruct (Z.leb_spec 0 e) as [He|He].
    + split; [|reflexivity]. intros _.
      destruct HI as [_ [z Hz]]; [now left|]. eauto.
    + assert (Hd : (2 ^ (- e) <> 0)%Z)
        by (apply Z.pow_nonzero; lia).
      rewrite Z.eqb_eq, (Z.mod_divide _ _ Hd), <- Hdiv. split.
      * intros H. destruct HI as [_ [z Hz]]; [now right|]. eauto.
      * intros [q [z [[= <-] Hz]]].
        destruct HI as [[H|H] _]; [eauto | lia | exact H].
Qed.

End NumberFacts.

(* ================================================================== *)
(** ** Type tags of merged and inferred schemas *)

Module TagFacts.
Import Js JsFacts MergeFacts InferFacts.

Lemma tags_merged_type types d p i r :
  nonblank types -> tags (mkSchema d (merged_type types) p i r) = types.
Proof.
  intros H. unfold tags, normalizeTypes. cbn [type].
  destruct types as [|x [|y l]]; cbn [merged_type]; try reflexivity.
  destruct (String.eqb_spec x ""); [|reflexivity].
  subst. exfalso. apply H. now left.
Qed.

Lemma tags_merge_both a b :
  nonblank (tags a) -> nonblank (tags b) ->
  tags (merge_both a b) = set_from (tags a ++ tags b).
Proof.
  intros Ha Hb. rewrite merge_both_unfold. cbv zeta.
  apply tags_merged_type. unfold nonblank, tags in *.
  rewrite set_from_In, in_app_iff. tauto.
Qed.

Lemma tags_mergeSchemas_In a b t :
  nonblank (normalizeTypes a) -> nonblank (normalizeTypes b) ->
  In t (tags (mergeSchemas a b)) <->
  In t (normalizeTypes a) \/ In t (normalizeTypes b).
Proof.
  intros Ha Hb. destruct a as [x|], b as [y|]; cbn [mergeSchemas nullish].
  - rewrite tags_merge_both by assumption.
    rewrite set_from_In, in_app_iff. reflexivity.
  - simpl. tauto.
  - simpl. tauto.
  - simpl. tauto.
Qed.

(** The tags of the unified [items] schema are the tags of the element
    schemas. *)
Lemma unified_tags xs : forall acc,
  nonblank (normalizeTypes acc) ->
  nonblank (normalizeTypes (unified xs acc)) /\
  forall t, In t (normalizeTypes (unified xs acc)) <->
            In t (normalizeTypes acc) \/ In t (map inferred_tag xs).
Proof.
  unfold unified.
  induction xs as [|x xs IH]; intros acc Ha; simpl.
  - split; [assumption | tauto].
  - assert (Hx : nonblank (normalizeTypes (Some (inferSchema x)))).
    { change (nonblank (tags (inferSchema x))). rewrite inferSchema_tags.
      intros [E|[]]. now apply (inferred_tag_nonblank x). }
    assert (Hm : forall t,
               In t (tags (mergeSchemas acc (Some (inferSchema x)))) <->
               In t (normalizeTypes acc) \/ inferred_tag x = t).
    { intros t. rewrite tags_mergeSchemas_In by assumption.
      change (normalizeTypes (Some (inferSchema x)))
        with (tags (inferSchema x)).
      rewrite inferSchema_tags. simpl. tauto. }
    destruct (IH (Some (mergeSchemas acc (Some (inferSchema x))))) as [H1 H2].
    { intros H. apply Hm in H. destruct H as [H|H]; [now apply Ha|].
      now apply (inferred_tag_nonblank x). }
    split; [assumption|]. intros t. rewrite H2.
    change (normalizeTypes (Some (mergeSchemas acc (Some (inferSchema x)))))
      with (tags (mergeSchemas acc (Some (inferSchema x)))).
    rewrite Hm. tauto.
Qed.

Lemma unified_items_tags xs t :
  In t (tags (nullish (unified xs None) empty_schema)) <->
  In t (map inferred_tag xs).
Proof.
  destruct (unified_tags xs None) as [_ H]; [intros []|].
  specialize (H t). simpl in H.
  destruct (unified xs None) as [u|]; cbn [nullish].
  - change (tags u) with (normalizeTypes (Some u)). tauto.
  - simpl in *. tauto.
Qed.

End TagFacts.

(* ================================================================== *)
(** ** Arrays of scalars *)

Module ScalarFacts.
Import Js JsFacts MergeFacts InferFacts AlikeFacts TagFacts.








End ScalarFacts.

(* ================================================================== *)
(** ** The structural invariant *)

Module InvariantFacts.
Import Js JsFacts MergeFacts InferFacts TagFacts ScalarFacts.





End InvariantFacts.

(* ================================================================== *)
(** ** The trimmer: specified properties *)

Module TrimSpec.
Import Js JsFacts TrimFacts.

(** C3 (trim length bound).  For a parsed value and a limit [>= 0],
    every array occurring anywhere in [trimStructure value limit] has at
    most [limit] elements.  Each of them sits at a path where the
    original has an array too; its length is [min limit (length
    original)]; and its elements are, in order, the trimmed first
    elements of the original, under the same limit.  Conversely, every
    array of the original that is reached through indices below the
    limit yields, at the same path, the array of its first [limit]
    elements, each trimmed with the same limit, so of length [min limit
    (length original)]; the nodes of the result are those reached
    through indices below the limit, and each is the trimmed original
    node. *)
Theorem trim_length_bound (value : JsonValue) (limit : Z) :
  well_formed value = true ->
  (0 <= limit)%Z ->
  arrays_within limit (trimStructure value limit) = true
  /\ (forall path trimmed,
      node_at (trimStructure value limit) path = Some (JArray trimmed) ->
      exists original,
        node_at value path = Some (JArray original)
        /\ (Z.of_nat (length trimmed) <= limit)%Z
        /\ Z.of_nat (length trimmed)
           = Z.min limit (Z.of_nat (length original))
        /\ trimmed = map (fun item => trimStructure item limit)
                         (firstn (length trimmed) original))
  /\ (forall path original,
      node_at value path = Some (JArray original) ->
      forallb (index_below limit) path = true ->
      exists trimmed,
        node_at (trimStructure value limit) path = Some (JArray trimmed)
        /\ Z.of_nat (length trimmed)
           = Z.min limit (Z.of_nat (length original))
        /\ trimmed = map (fun item => trimStructure item limit)
                         (firstn (Z.to_nat limit) original))
  /\ (forall path node,
      node_at value path = Some node ->
      forallb (index_below limit) path = true ->
      node_at (trimStructure value limit) path
      = Some (trimStructure node limit))
  /\ (forall path node',
      node_at (trimStructure value limit) path = Some node' ->
      forallb (index_below limit) path = true).
Proof.
  intros W Hl. split; [now apply trimStructure_arrays_within|].
  split; [|split; [|split]].
  - intros path trimmed H.
    destruct (node_at_trimStructure limit path value _ W H) as [x [Hx [_ E]]].
    destruct x as [| | | |original|es]; try discriminate.
    rewrite trimStructure_array in E. injection E as E.
    exists original.
    assert (L : length trimmed = slice_end original limit).
    { rewrite E, length_map. apply slice0_length. }
    rewrite L, slice_end_nonneg by assumption.
    repeat split; try assumption; try lia.
    rewrite <- slice_end_nonneg by assumption. exact E.
  - intros path original H K.
    pose proof (node_at_below_trimStructure limit path value _ W Hl K H) as E.
    rewrite trimStructure_array in E.
    eexists. split; [exact E|]. split.
    + rewrite length_map, slice0_length, slice_end_nonneg by assumption. lia.
    + unfold slice0. rewrite slice_end_nonneg by assumption.
      now rewrite firstn_min.
  - intros path node H K.
    now apply node_at_below_trimStructure.
  - intros path node' H.
    now apply (node_at_trimStructure_below limit path value node').
Qed.

Lemma trim_length_bound_witness :
  well_formed Samples.users = true
  /\ (0 <= 1)%Z
  /\ arrays_within 1 (trimStructure Samples.users 1) = true
  /\ (exists original,
      node_at Samples.users [Key "users"; Index 0; Key "roles"]
      = Some (JArray original)
      /\ (Z.of_nat (length [JString "admin"]) <= 1)%Z
      /\ Z.of_nat (length [JString "admin"])
         = Z.min 1 (Z.of_nat (length original))
      /\ [JString "admin"]
         = map (fun item => trimStructure item 1)
               (firstn (length [JString "admin"]) original))
  /\ (exists trimmed,
      node_at (trimStructure Samples.users 1)
              [Key "users"; Index 0; Key "roles"]
      = Some (JArray trimmed)
      /\ Z.of_nat (length trimmed) = Z.min 1 2
      /\ trimmed = [JString "admin"]).
Proof.
  split; [reflexivity|]. split; [lia|].
  destruct (trim_length_bound Samples.users 1) as [B [P [Q _]]];
    [reflexivity | lia |].
  split; [exact B|]. split.
  - apply (P [Key "users"; Index 0; Key "roles"] [JString "admin"]).
    reflexivity.
  - apply (Q [Key "users"; Index 0; Key "roles"]
             [JString "admin"; JString "editor"]); reflexivity.
Defined.

(** C5 (trim structure preservation).  Trimming a parsed value keeps, at
    every node it retains, the kind of the node and, for an object, its
    keys in their order; scalar leaves come back unchanged; nothing that
    is reached through object keys alone is lost; and a limit no smaller
    than the longest array of the value gives the value back. *)
Theorem trim_structure_preserved (value : JsonValue) (limit : Z) :
  well_formed value = true ->
  (forall path node',
      node_at (trimStructure value limit) path = Some node' ->
      exists node,
        node_at value path = Some node
        /\ kind node' = kind node
        /\ entry_keys node' = entry_keys node
        /\ (is_scalar node = true -> node' = node))
  /\ (forall path node,
         forallb is_key path = true ->
         node_at value path = Some node ->
         exists node',
           node_at (trimStructure value limit) path = Some node'
           /\ kind node' = kind node
           /\ entry_keys node' = entry_keys node)
  /\ ((Z.of_nat (max_array_len value) <= limit)%Z ->
      trimStructure value limit = value).
Proof.
  intros W.
  assert (K : forall x, well_formed x = true ->
                        entry_keys (trimStructure x limit) = entry_keys x).
  { intros [| | | |xs|es] Wx; try reflexivity.
    apply well_formed_object in Wx. destruct Wx as [Ho _].
    rewrite trimStructure_object by assumption. cbn [entry_keys].
    now rewrite (keys_map (fun c => trimStructure c limit)). }
  repeat split.
  - intros path node' H.
    destruct (node_at_trimStructure limit path value _ W H) as [x [Hx [Wx E]]].
    exists x. subst node'.
    auto using trimStructure_kind, trimStructure_scalar.
  - intros path node Hk H. exists (trimStructure node limit).
    destruct (node_at_trimStructure limit path value (trimStructure node limit) W)
      as [x [Hx [Wx _]]].
    { now apply node_at_keys_trimStructure. }
    assert (x = node) by congruence. subst x.
    auto using node_at_keys_trimStructure, trimStructure_kind.
  - now apply trimStructure_large_limit.
Qed.

Lemma trim_structure_preserved_witness :
  well_formed Samples.users = true
  /\ trimStructure Samples.users 2 = Samples.users.
Proof.
  split; [reflexivity|].
  apply (trim_structure_preserved Samples.users 2); [reflexivity|].
  vm_compute. discriminate.
Defined.

(** C6 (trim idempotence).  For a parsed value and a fixed limit
    [n >= 0], trimming a second time changes nothing. *)
Theorem trim_idempotent (value : JsonValue) (n : Z) :
  well_formed value = true ->
  (0 <= n)%Z ->
  trimStructure (trimStructure value n) n = trimStructure value n.
Proof. apply trimStructure_idem. Qed.

Lemma trim_idempotent_witness :
  well_formed Samples.users = true
  /\ (0 <= 1)%Z
  /\ trimStructure (trimStructure Samples.users 1) 1
     = trimStructure Samples.users 1.
Proof.
  split; [reflexivity|]. split; [lia|].
  apply (trim_idempotent Samples.users 1); [reflexivity | lia].
Defined.

End TrimSpec.

(* ================================================================== *)
(** ** The inferrer and the merger: specified properties *)

Module SchemaSpec.
Import Js JsFacts MergeFacts InferFacts AlikeFacts TagFacts NumberFacts.
Import ScalarFacts InvariantFacts.

(** C7 (scalar inference by value kind).  [null], booleans and strings
    infer their own tag; a number infers ["integer"] exactly when it is
    mathematically an integer and ["number"] otherwise, value by value:
    [5] is an integer, [5.5] is not, and [1] and [1.5] in one array give
    the two tags to be merged. *)
Theorem infer_scalar_by_kind :
  inferSchema JNull = type_only "null"
  /\ (forall b, inferSchema (JBool b) = type_only "boolean")
  /\ (forall s, inferSchema (JString s) = type_only "string")
  /\ (forall x, integral x -> inferSchema (JNumber x) = type_only "integer")
  /\ (forall x, ~ integral x -> inferSchema (JNumber x) = type_only "number")
  /\ inferSchema (Samples.num 5) = type_only "integer"
  /\ inferSchema Samples.five_and_a_half = type_only "number"
  /\ option_map type
       (items (inferSchema
                 (JArray [Samples.num 1; JNumber (S754_finite false 3 (-1))])))
     = Some (Some (TypeMany ["integer"; "number"])).
Proof.
  repeat split; try reflexivity.
  - intros x H. apply Number_isInteger_integral in H.
    cbn [inferSchema]. now rewrite H.
  - intros x H. cbn [inferSchema].
    destruct (Number_isInteger x) eqn:E; [|reflexivity].
    apply Number_isInteger_integral in E. contradiction.
Qed.

(** C4 (required-field intersection).  When both operands have the tag
    [object], the merged [required] holds exactly the names that both
    operands require, each once, and is left out exactly when there is
    no such name; for [[{"a":1,"b":2},{"a":1}]] the unified item schema
    has the properties [a] and [b] and requires [a] alone. *)
Theorem merge_required_is_intersection (a b : JsonSchema) :
  has_tag a "object" = true ->
  has_tag b "object" = true ->
  let merged := mergeSchemas (Some a) (Some b) in
  let common k :=
    In k (nullish (required a) []) /\ In k (nullish (required b) []) in
  (forall k, In k (nullish (required merged) []) <-> common k)
  /\ NoDup (nullish (required merged) [])
  /\ (required merged = None <-> forall k, ~ common k)
  /\ items (inferSchema (JArray [Samples.obj_ab; Samples.obj_a]))
     = Some (mkSchema None (Some (TypeOne "object"))
                      (Some [("a", Samples.integer); ("b", Samples.integer)])
                      None (Some ["a"])).
Proof.
  intros Ha Hb. cbv zeta. cbn [mergeSchemas].
  rewrite merge_both_required, Ha, Hb. cbn [andb].
  refine (conj _ (conj _ (conj _ _))).
  - intros k. apply merged_required_In.
  - apply merged_required_NoDup.
  - apply merged_required_None.
  - reflexivity.
Qed.

Lemma merge_required_is_intersection_witness :
  required (mergeSchemas (Some (inferSchema Samples.obj_ab))
                         (Some (inferSchema Samples.obj_a)))
  = None
  <-> forall k,
      ~ (In k (nullish (required (inferSchema Samples.obj_ab)) [])
         /\ In k (nullish (required (inferSchema Samples.obj_a)) [])).
Proof.
  apply (merge_required_is_intersection
           (inferSchema Samples.obj_ab) (inferSchema Samples.obj_a));
    reflexivity.
Defined.

(** C8 (merge descends only when both sides qualify).  The merge of two
    schemas has [properties] exactly when both have the tag [object] and
    [items] exactly when both have the tag [array], and it has [required]
    only when both have the tag [object]; the merged type set has each of
    the two tags as soon as one side has it, so with one qualifying side
    the tag is there and the field is not. *)
Theorem merge_substructure_needs_both (a b : JsonSchema) :
  let merged := mergeSchemas (Some a) (Some b) in
  is_some (properties merged) = has_tag a "object" && has_tag b "object"
  /\ is_some (items merged) = has_tag a "array" && has_tag b "array"
  /\ (is_some (required merged) = true ->
      has_tag a "object" && has_tag b "object" = true)
  /\ has_tag merged "object" = has_tag a "object" || has_tag b "object"
  /\ has_tag merged "array" = has_tag a "array" || has_tag b "array"
  /\ (xorb (has_tag a "object") (has_tag b "object") = true ->
      has_tag merged "object" = true
      /\ properties merged = None /\ required merged = None)
  /\ (xorb (has_tag a "array") (has_tag b "array") = true ->
      has_tag merged "array" = true /\ items merged = None).
Proof.
  cbv zeta. cbn [mergeSchemas].
  rewrite merge_both_properties, merge_both_items, merge_both_required.
  rewrite !has_tag_merge_both by discriminate.
  destruct (has_tag a "object"), (has_tag b "object"),
           (has_tag a "array"), (has_tag b "array");
    cbn; repeat split; try reflexivity; try discriminate; auto.
Qed.

Lemma merge_substructure_needs_both_witness :
  has_tag (mergeSchemas (Some (type_only "string"))
                        (Some (inferSchema Samples.obj_a))) "object" = true
  /\ properties (mergeSchemas (Some (type_only "string"))
                              (Some (inferSchema Samples.obj_a))) = None
  /\ required (mergeSchemas (Some (type_only "string"))
                            (Some (inferSchema Samples.obj_a))) = None.
Proof.
  apply (merge_substructure_needs_both
           (type_only "string") (inferSchema Samples.obj_a)).
  reflexivity.
Defined.

(** C9 (root wrapping).  For every value, [generateSchema] gives the
    inferred schema with [$schema] set to the one draft identifier,
    whatever the value; no schema below the root carries [$schema]. *)
Theorem generateSchema_root_wrapping (value : JsonValue) :
  generateSchema value
  = mkSchema (Some draft_2020_12)
             (type (inferSchema value)) (properties (inferSchema value))
             (items (inferSchema value)) (required (inferSchema value))
  /\ dollar_schema (generateSchema value)
     = Some "https://json-schema.org/draft/2020-12/schema"
  /\ everywhere no_dollar_schema (inferSchema value) = true
  /\ below no_dollar_schema (generateSchema value) = true.
Proof.
  assert (E : everywhere no_dollar_schema (inferSchema value) = true).
  { apply everywhere_inferSchema.
    - intros a b. unfold no_dollar_schema. now rewrite merge_both_dollar.
    - reflexivity.
    - intros v. unfold no_dollar_schema. now rewrite inferSchema_dollar. }
  unfold generateSchema. cbv zeta. rewrite inferSchema_dollar.
  refine (conj eq_refl (conj eq_refl (conj E _))).
  rewrite everywhere_below in E. apply andb_true_iff in E.
  destruct E as [_ E]. exact E.
Qed.

(** C10 (the empty schema is no identity).  An absent operand is an
    identity of the merger; the empty schema [{}] is not: merged with a
    schema [b] that has the tag [object] or [array], on either side, it
    gives a schema with the tags of [b] and without [properties],
    [required] and [items], hence not [b] when [b] has one of them. *)
Theorem empty_schema_not_identity (b : JsonSchema) :
  has_tag b "object" = true \/ has_tag b "array" = true ->
  let merged_l := mergeSchemas (Some empty_schema) (Some b) in
  let merged_r := mergeSchemas (Some b) (Some empty_schema) in
  mergeSchemas None (Some b) = b
  /\ mergeSchemas (Some b) None = b
  /\ (forall t, In t (tags merged_l) <-> In t (tags b))
  /\ properties merged_l = None
  /\ required merged_l = None
  /\ items merged_l = None
  /\ (forall t, In t (tags merged_r) <-> In t (tags b))
  /\ properties merged_r = None
  /\ required merged_r = None
  /\ items merged_r = None
  /\ (is_some (properties b) || is_some (items b) || is_some (required b)
      = true -> merged_l <> b /\ merged_r <> b).
Proof.
  intros Hb. cbv zeta. cbn [mergeSchemas nullish].
  assert (T : forall d p i r, tags (mkSchema d (merged_type (set_from (tags b))) p i r)
                              = set_from (tags b)).
  { intros d p i r. unfold tags at 1, normalizeTypes. cbn [type].
    destruct (set_from (tags b)) as [|x [|y l]] eqn:E;
      cbn [merged_type]; try reflexivity.
    destruct (String.eqb_spec x ""); [|reflexivity]. subst x. exfalso.
    assert (H : forall t, has_tag b t = true -> t = "").
    { intros t Ht. apply has_In in Ht. apply set_from_In in Ht.
      rewrite E in Ht. destruct Ht as [<-|[]]. reflexivity. }
    destruct Hb as [Hb|Hb]; apply H in Hb; discriminate. }
  assert (Pl : properties (merge_both empty_schema b) = None
               /\ required (merge_both empty_schema b) = None
               /\ items (merge_both empty_schema b) = None).
  { rewrite merge_both_properties, merge_both_required, merge_both_items.
    repeat split; reflexivity. }
  assert (Pr : properties (merge_both b empty_schema) = None
               /\ required (merge_both b empty_schema) = None
               /\ items (merge_both b empty_schema) = None).
  { rewrite merge_both_properties, merge_both_required, merge_both_items.
    change (has_tag empty_schema "object") with false.
    change (has_tag empty_schema "array") with false.
    rewrite !andb_false_r. repeat split; reflexivity. }
  destruct Pl as [Pl1 [Pl2 Pl3]], Pr as [Pr1 [Pr2 Pr3]].
  refine (conj eq_refl (conj eq_refl (conj _ (conj Pl1 (conj Pl2 (conj Pl3
          (conj _ (conj Pr1 (conj Pr2 (conj Pr3 _))))))))));
    clear Hb.
  - intros t. rewrite merge_both_unfold. cbv zeta.
    change (normalizeTypes (Some empty_schema)) with (@nil string).
    cbn [app]. change (normalizeTypes (Some b)) with (tags b).
    rewrite T. apply set_from_In.
  - intros t. rewrite merge_both_unfold. cbv zeta.
    change (normalizeTypes (Some empty_schema)) with (@nil string).
    rewrite app_nil_r. change (normalizeTypes (Some b)) with (tags b).
    rewrite T. apply set_from_In.
  - intros H. split; intros E; rewrite <- E in H;
      [rewrite Pl1, Pl2, Pl3 in H | rewrite Pr1, Pr2, Pr3 in H];
      discriminate.
Qed.

Lemma empty_schema_not_identity_witness :
  has_tag (inferSchema Samples.obj_a) "object" = true
  /\ properties (mergeSchemas (Some empty_schema)
                              (Some (inferSchema Samples.obj_a))) = None.
Proof.
  split; [reflexivity|].
  apply (empty_schema_not_identity (inferSchema Samples.obj_a)).
  left. reflexivity.
Defined.







End SchemaSpec.

(* ================================================================== *)
(** ** The trimmer: further properties *)

Module TrimMore.
Import Js JsFacts TrimFacts.

Lemma firstn_map {A B} (f : A -> B) n (l : list A) :
  firstn n (map f l) = map f (firstn n l).
Proof.
  revert l. induction n as [|n IH]; intros [|x l]; simpl; try reflexivity.
  now rewrite IH.
Qed.

Lemma slice0_slice0 {A} (xs : list A) (m n : Z) :
  (0 <= m)%Z -> (0 <= n)%Z ->
  slice0 (slice0 xs m) n = slice0 xs (Z.min m n).
Proof.
  intros Hm Hn. unfold slice0.
  rewrite (slice_end_nonneg (firstn _ _)) by assumption.
  rewrite length_firstn, !slice_end_nonneg by lia.
  rewrite firstn_firstn. f_equal. lia.
Qed.

Lemma slice0_map {A B} (f : A -> B) (xs : list A) n :
  slice0 (map f xs) n = map f (slice0 xs n).
Proof.
  unfold slice0, slice_end. rewrite length_map. apply firstn_map.
Qed.

(** X1.  Two passes with limits [m] and [n], both [>= 0], amount to one
    pass with the smaller limit. *)
Theorem trimStructure_twice (value : JsonValue) (m n : Z) :
  well_formed value = true ->
  (0 <= m)%Z -> (0 <= n)%Z ->
  trimStructure (trimStructure value m) n = trimStructure value (Z.min m n).
Proof.
  intros W Hm Hn.
  induction value as [| | | |xs IH|es IH] using JsonValue_ind;
    try reflexivity.
  - apply well_formed_array in W.
    rewrite !trimStructure_array.
    rewrite slice0_map, slice0_slice0 by assumption.
    f_equal. rewrite map_map. apply map_ext_in. intros x Hx.
    apply firstn_In in Hx. rewrite Forall_forall in *. auto.
  - apply well_formed_object in W. destruct W as [Ho W].
    rewrite (trimStructure_object es m) by assumption.
    rewrite trimStructure_object
      by (unfold is_object; now rewrite (keys_map (fun c => trimStructure c m))).
    rewrite trimStructure_object by assumption.
    f_equal. rewrite map_map. apply map_ext_in. intros [k c] Hkv. cbn [fst snd].
    f_equal. rewrite Forall_forall in *. apply (IH _ Hkv). apply (W _ Hkv).
Qed.

Lemma trimStructure_twice_witness :
  trimStructure (trimStructure Samples.users 2) 1
  = trimStructure Samples.users (Z.min 2 1).
Proof.
  apply (trimStructure_twice Samples.users 2 1); [reflexivity | lia | lia].
Defined.

(** X2.  The trimmed copy of a parsed value is a value of the same sort:
    at every object its entries are in own-property order without a
    repeated key, whatever the limit. *)
Theorem trimStructure_keeps_well_formed (value : JsonValue) (limit : Z) :
  well_formed value = true ->
  well_formed (trimStructure value limit) = true.
Proof. apply trimStructure_well_formed. Qed.

Lemma trimStructure_keeps_well_formed_witness :
  well_formed (trimStructure Samples.users (-1)) = true.
Proof.
  apply (trimStructure_keeps_well_formed Samples.users (-1)). reflexivity.
Defined.

Lemma fold_max_map_min (f : JsonValue -> nat) (n : nat) (xs : list JsonValue) :
  fold_right (fun x m => Nat.max (Nat.min n (f x)) m) 0 xs
  = Nat.min n (fold_right (fun x m => Nat.max (f x) m) 0 xs).
Proof.
  induction xs as [|x xs IH]; simpl; [lia|]. rewrite IH. lia.
Qed.

Lemma fold_max_firstn_le (f : JsonValue -> nat) c (xs : list JsonValue) :
  fold_right (fun x m => Nat.max (f x) m) 0 (firstn c xs)
  <= fold_right (fun x m => Nat.max (f x) m) 0 xs.
Proof.
  revert c. induction xs as [|x xs IH]; intros [|c]; simpl; try lia.
  specialize (IH c). lia.
Qed.

(** X3.  For a limit [>= 0] the longest array of the trimmed value has
    the length of the longest array of the original, capped at the
    limit. *)
Theorem max_array_len_trimStructure (value : JsonValue) (limit : Z) :
  well_formed value = true ->
  (0 <= limit)%Z ->
  max_array_len (trimStructure value limit)
  = Nat.min (Z.to_nat limit) (max_array_len value).
Proof.
  intros W Hl.
  induction value as [| | | |xs IH|es IH] using JsonValue_ind;
    try (simpl; lia).
  - apply well_formed_array in W.
    rewrite trimStructure_array. cbn [max_array_len].
    rewrite length_map, slice0_length, slice_end_nonneg by assumption.
    set (n := Z.to_nat limit).
    assert (E : fold_right
                  (fun item m => Nat.max (max_array_len item) m) 0
                  (map (fun item => trimStructure item limit) (slice0 xs limit))
                = fold_right
                    (fun x m => Nat.max (Nat.min n (max_array_len x)) m) 0
                    (slice0 xs limit)).
    { assert (F : Forall (fun x => max_array_len (trimStructure x limit)
                                   = Nat.min n (max_array_len x))
                         (slice0 xs limit)).
      { rewrite Forall_forall in *. intros x Hx. apply firstn_In in Hx. auto. }
      induction F as [|x l Hx F IHF]; simpl; [reflexivity|].
      now rewrite Hx, IHF. }
    rewrite E, fold_max_map_min. unfold slice0.
    rewrite slice_end_nonneg by assumption. fold n.
    pose proof (fold_max_firstn_le max_array_len (Nat.min n (length xs)) xs).
    destruct (Nat.le_gt_cases (length xs) n) as [L|L].
    + rewrite (Nat.min_r n (length xs)) by assumption.
      rewrite firstn_all. lia.
    + lia.
  - apply well_formed_object in W. destruct W as [Ho W].
    rewrite trimStructure_object by assumption. cbn [max_array_len].
    set (n := Z.to_nat limit).
    assert (E : forall l : list (string * JsonValue),
               Forall (fun kv => max_array_len (trimStructure (snd kv) limit)
                                 = Nat.min n (max_array_len (snd kv))) l ->
               fold_right
                 (fun kv m => Nat.max (max_array_len (snd kv)) m) 0
                 (map (fun kv => (fst kv, trimStructure (snd kv) limit)) l)
               = Nat.min n
                   (fold_right
                      (fun kv m => Nat.max (max_array_len (snd kv)) m) 0 l)).
    { induction 1 as [|kv l Hkv F IHF]; simpl; [lia|].
      rewrite Hkv, IHF. lia. }
    apply E. rewrite Forall_forall in *. intros kv Hkv.
    apply (IH _ Hkv). apply (W _ Hkv).
Qed.

Lemma max_array_len_trimStructure_witness :
  max_array_len (trimStructure Samples.users 1)
  = Nat.min (Z.to_nat 1) (max_array_len Samples.users).
Proof.
  apply (max_array_len_trimStructure Samples.users 1); [reflexivity | lia].
Defined.

End TrimMore.

(* ================================================================== *)
(** ** Own-property order is kept by property writes *)

Module KeyOrderFacts.
Import Js JsFacts.

Lemma digits_value_acc s : forall acc,
  digits_value acc s
  = (acc * 10 ^ N.of_nat (String.length s) + digits_value 0 s)%N.
Proof.
  induction s as [|c s IH]; intros acc; cbn [digits_value String.length].
  - simpl. lia.
  - rewrite IH, (IH (0 * 10 + _)%N).
    rewrite Nat2N.inj_succ, N.pow_succ_r'. lia.
Qed.

Lemma is_digit_bound c : is_digit c = true -> (digit_of c <= 9)%N.
Proof.
  unfold is_digit, digit_of. intros H.
  apply andb_true_iff in H. destruct H as [H1 H2].
  apply Nat.leb_le in H1, H2. lia.
Qed.

Lemma is_digit_inj c c' :
  is_digit c = true -> is_digit c' = true ->
  digit_of c = digit_of c' -> c = c'.
Proof.
  unfold is_digit, digit_of. intros H H' E.
  apply andb_true_iff in H, H'. destruct H as [H1 H2], H' as [H1' H2'].
  apply Nat.leb_le in H1, H2, H1', H2'.
  rewrite <- (ascii_nat_embedding c), <- (ascii_nat_embedding c').
  f_equal. lia.
Qed.

Lemma digits_value_bound s :
  all_digits s = true ->
  (digits_value 0 s < 10 ^ N.of_nat (String.length s))%N.
Proof.
  induction s as [|c s IH]; cbn [all_digits digits_value String.length];
    intros H.
  - simpl. lia.
  - apply andb_true_iff in H. destruct H as [Hc Hs].
    rewrite digits_value_acc. specialize (IH Hs).
    pose proof (is_digit_bound c Hc). fold (digit_of c).
    rewrite Nat2N.inj_succ, N.pow_succ_r'. nia.
Qed.

Lemma digits_value_cons c s :
  digits_value 0 (String c s)
  = (digit_of c * 10 ^ N.of_nat (String.length s) + digits_value 0 s)%N.
Proof.
  cbn [digits_value]. rewrite digits_value_acc. unfold digit_of. lia.
Qed.

Lemma digits_same_length s : forall s',
  all_digits s = true -> all_digits s' = true ->
  String.length s = String.length s' ->
  digits_value 0 s = digits_value 0 s' -> s = s'.
Proof.
  induction s as [|c s IH]; intros [|c' s'] H H' L E; try discriminate.
  - reflexivity.
  - cbn [all_digits] in H, H'. apply andb_true_iff in H, H'.
    destruct H as [Hc Hs], H' as [Hc' Hs'].
    injection L as L. rewrite !digits_value_cons, <- L in E.
    pose proof (digits_value_bound s Hs) as B.
    pose proof (digits_value_bound s' Hs') as B'. rewrite <- L in B'.
    assert (D : digit_of c = digit_of c') by nia.
    rewrite D in E.
    f_equal; [now apply is_digit_inj | apply IH; try assumption; lia].
Qed.

(** Two keys that are the same array index are the same key. *)
Lemma array_index_inj k k' n :
  array_index k = Some n -> array_index k' = Some n -> k = k'.
Proof.
  assert (Zero : forall c rest m,
             array_index (String c rest) = Some m ->
             Ascii.eqb c "0" = true -> String c rest = "0" /\ m = 0%N).
  { intros c rest m H Hc. unfold array_index in H.
    rewrite Hc in H. cbn [negb orb] in H.
    destruct (String.eqb_spec rest ""); [|now rewrite andb_false_r in H].
    subst rest. apply Ascii.eqb_eq in Hc. subst c.
    vm_compute in H. injection H as <-. auto. }
  assert (Pos : forall c rest m,
             array_index (String c rest) = Some m ->
             Ascii.eqb c "0" = false ->
             all_digits (String c rest) = true
             /\ m = digits_value 0 (String c rest)
             /\ (10 ^ N.of_nat (String.length rest) <= m)%N).
  { intros c rest m H Hc. unfold array_index in H.
    destruct (all_digits (String c rest)) eqn:A; [|discriminate].
    match type of H with
    | (if ?b then _ else _) = _ => destruct b; [|discriminate]
    end.
    injection H as <-. repeat split.
    change (digits_value (N.of_nat (nat_of_ascii c - 48)) rest)
      with (digits_value 0 (String c rest)).
    rewrite digits_value_cons.
    cbn [all_digits] in A. apply andb_true_iff in A. destruct A as [A _].
    assert (digit_of c <> 0%N).
    { unfold digit_of, is_digit in *.
      apply andb_true_iff in A. destruct A as [A1 A2].
      apply Nat.leb_le in A1, A2. intros E.
      assert (nat_of_ascii c = 48) by lia.
      assert (c = "0"%char)
        by (rewrite <- (ascii_nat_embedding c); now rewrite H).
      subst c. discriminate. }
    nia. }
  intros H H'.
  destruct k as [|c rest]; [discriminate|].
  destruct k' as [|c' rest']; [discriminate|].
  destruct (Ascii.eqb c "0") eqn:Hc, (Ascii.eqb c' "0") eqn:Hc'.
  - destruct (Zero _ _ _ H Hc) as [-> _].
    destruct (Zero _ _ _ H' Hc') as [-> _]. reflexivity.
  - destruct (Zero _ _ _ H Hc) as [_ ->].
    destruct (Pos _ _ _ H' Hc') as [_ [_ B]].
    pose proof (N.pow_nonzero 10 (N.of_nat (String.length rest'))). lia.
  - destruct (Zero _ _ _ H' Hc') as [_ ->].
    destruct (Pos _ _ _ H Hc) as [_ [_ B]].
    pose proof (N.pow_nonzero 10 (N.of_nat (String.length rest))). lia.
  - destruct (Pos _ _ _ H Hc) as [A [E B]].
    destruct (Pos _ _ _ H' Hc') as [A' [E' B']].
    apply digits_same_length; try assumption; [|congruence].
    pose proof (digits_value_bound _ A) as U.
    pose proof (digits_value_bound _ A') as U'.
    rewrite <- E in U. rewrite <- E' in U'.
    cbn [String.length] in *. f_equal.
    destruct (Nat.lt_trichotomy (String.length rest) (String.length rest'))
      as [L|[L|L]]; [exfalso | exact L | exfalso].
    + assert (10 ^ N.of_nat (S (String.length rest))
              <= 10 ^ N.of_nat (String.length rest'))%N
        by (apply N.pow_le_mono_r; lia).
      lia.
    + assert (10 ^ N.of_nat (S (String.length rest'))
              <= 10 ^ N.of_nat (String.length rest))%N
        by (apply N.pow_le_mono_r; lia).
      lia.
Qed.

Lemma key_before_new k0 k k1 :
  k0 <> k ->
  key_before k0 k = false -> key_before k0 k1 = true ->
  key_before k k0 = true /\ key_before k k1 = true.
Proof.
  unfold key_before. intros Hne H0 H1.
  destruct (array_index k0) as [a|] eqn:E0, (array_index k) as [b|] eqn:E;
    try discriminate.
  - assert (a <> b) by (intros ->; apply Hne; eapply array_index_inj; eauto).
    apply N.ltb_ge in H0.
    destruct (array_index k1) as [c|]; split; auto; apply N.ltb_lt;
      try apply N.ltb_lt in H1; lia.
  - destruct (array_index k1); [discriminate | auto].
Qed.

Section OrderKept.
Context {V : Type}.
Implicit Types (o : obj V) (k : string) (v : V).

Lemma ordered_keys_cons k ks :
  ordered_keys (k :: ks) = true <->
  ~ In k ks /\ (forall k', In k' ks -> key_before k k' = true)
  /\ ordered_keys ks = true.
Proof.
  cbn [ordered_keys]. rewrite !andb_true_iff, negb_true_iff.
  rewrite has_false, forallb_forall. tauto.
Qed.

Lemma obj_create_ordered o k v :
  is_object o = true -> has_key o k = false ->
  is_object (obj_create o k v) = true.
Proof.
  unfold is_object, has_key.
  induction o as [|[k0 w] o IH]; intros Ho Hk; [reflexivity|].
  cbn [keys map fst] in Ho, Hk. fold (keys o) in Ho, Hk.
  apply ordered_keys_cons in Ho. destruct Ho as [N0 [B0 O]].
  apply has_false in Hk. cbn [In] in Hk.
  assert (Hne : k0 <> k) by tauto.
  assert (Hk' : has (keys o) k = false) by (apply has_false; tauto).
  cbn [obj_create]. destruct (key_before k0 k) eqn:Eb.
  - cbn [keys map fst]. fold (keys (obj_create o k v)).
    apply ordered_keys_cons. repeat split.
    + intros H. apply (Permutation_in _ (keys_create o k v)) in H.
      destruct H as [H|H]; [congruence | contradiction].
    + intros k' H. apply (Permutation_in _ (keys_create o k v)) in H.
      destruct H as [<-|H]; [assumption | now apply B0].
    + now apply IH.
  - cbn [keys map fst]. fold (keys o).
    apply ordered_keys_cons. repeat split.
    + cbn [In]. tauto.
    + intros k' [<-|H].
      * destruct o as [|[k1 w1] o'].
        -- unfold key_before in *.
           destruct (array_index k0) as [a|] eqn:E0,
                    (array_index k) as [b|] eqn:E; try discriminate; auto.
           apply N.ltb_ge in Eb. apply N.ltb_lt.
           assert (a <> b)
             by (intros ->; apply Hne; eapply array_index_inj; eauto).
           lia.
        -- apply (key_before_new k0 k k1 Hne Eb). apply B0. now left.
      * apply (key_before_new k0 k k' Hne Eb). now apply B0.
    + apply ordered_keys_cons. auto.
Qed.

(** Writing a property to an object leaves an object. *)
Lemma obj_set_ordered o k v :
  is_object o = true -> is_object (obj_set o k v) = true.
Proof.
  intros Ho. unfold obj_set. destruct (has_key o k) eqn:E.
  - unfold is_object. now rewrite keys_replace.
  - now apply obj_create_ordered.
Qed.

Lemma fill_ordered (f : string -> V) ks : forall o,
  is_object o = true -> is_object (fill f ks o) = true.
Proof.
  unfold fill. induction ks as [|k ks IH]; intros o Ho; simpl; [assumption|].
  apply IH, obj_set_ordered, Ho.
Qed.

(** Filling the keys of an object, in order, lays the values out beside
    these keys. *)
Lemma fill_keys_of_object (f : string -> V) o :
  is_object o = true ->
  fill f (keys o) [] = map (fun kv => (fst kv, f (fst kv))) o.
Proof.
  intros Ho. unfold fill.
  rewrite <- (fromEntries_object (map (fun kv => (fst kv, f (fst kv))) o)).
  - unfold fromEntries, keys.
    generalize (@nil (string * V)) as acc.
    induction o as [|kv o IH]; intros acc; simpl; [reflexivity|].
    apply IH. unfold is_object, keys in *. simpl in Ho.
    apply andb_true_iff in Ho. tauto.
  - unfold is_object, keys in *. now rewrite map_map.
Qed.
End OrderKept.

Lemma obj_get_entry {V} (o : obj V) k v :
  NoDup (keys o) -> In (k, v) o -> obj_get o k = Some v.
Proof.
  induction o as [|[k0 w] o IH]; intros N H; [destruct H|].
  cbn [keys map fst] in N. inversion N as [|? ? N1 N2]; subst.
  cbn [obj_get]. destruct H as [[= -> ->]|H].
  - now rewrite String.eqb_refl.
  - destruct (String.eqb_spec k0 k) as [->|_]; [|now apply IH].
    exfalso. apply N1. apply (in_map fst) in H. exact H.
Qed.

Lemma distinct_NoDup names : distinct names = true <-> NoDup names.
Proof.
  induction names as [|x names IH]; simpl.
  - split; [constructor | reflexivity].
  - rewrite andb_true_iff, negb_true_iff, has_false, IH.
    split; [intros [H1 H2]; now constructor | now inversion 1].
Qed.

Lemma ordered_keys_distinct ks : ordered_keys ks = true -> distinct ks = true.
Proof.
  induction ks as [|k ks IH]; simpl; [reflexivity|].
  rewrite !andb_true_iff. tauto.
Qed.

Lemma set_from_distinct xs : NoDup xs -> set_from xs = xs.
Proof.
  unfold set_from.
  assert (G : forall acc, NoDup (acc ++ xs) ->
                          fold_left set_add xs acc = acc ++ xs).
  { induction xs as [|x xs IH]; intros acc H; simpl.
    - now rewrite app_nil_r.
    - assert (E : set_add acc x = acc ++ [x]).
      { unfold set_add. destruct (has acc x) eqn:E; [|reflexivity].
        apply has_In in E. apply NoDup_remove_2 in H.
        exfalso. apply H. apply in_or_app. now left. }
      rewrite E, IH; rewrite <- app_assoc; [reflexivity | exact H]. }
  intros H. now apply (G []).
Qed.

Lemma set_from_twice xs : NoDup xs -> set_from (xs ++ xs) = xs.
Proof.
  intros H. unfold set_from. rewrite fold_left_app.
  fold (set_from xs). rewrite (set_from_distinct xs H).
  assert (G : forall ys, incl ys xs -> fold_left set_add ys xs = xs).
  { induction ys as [|y ys IH]; intros I; simpl; [reflexivity|].
    assert (E : set_add xs y = xs).
    { unfold set_add.
      assert (Hy : has xs y = true) by (apply has_In, I; now left).
      now rewrite Hy. }
    rewrite E. apply IH. intros z Hz. apply I. now right. }
  apply G, incl_refl.
Qed.

End KeyOrderFacts.

(* ================================================================== *)
(** ** Properties kept by the merger, at every level *)

Module ClosedFacts.
Import Js JsFacts MergeFacts InferFacts.

Lemma everywhere_at_root P s : everywhere P s = true -> P s = true.
Proof.
  rewrite everywhere_eq. intros H.
  apply andb_true_iff in H. destruct H as [H _].
  apply andb_true_iff in H. tauto.
Qed.

Section Closed.
Variable P : JsonSchema -> bool.
Hypothesis P_merge :
  forall a b, P a = true -> P b = true -> P (merge_both a b) = true.
Hypothesis P_empty : P empty_schema = true.

Lemma closed_merge_both a : forall b,
  everywhere P a = true -> everywhere P b = true ->
  everywhere P (merge_both a b) = true.
Proof.
  induction a as [d t ps it rq IHp IHi] using JsonSchema_ind.
  intros b Ha Hb.
  rewrite everywhere_eq, merge_both_properties, merge_both_items.
  rewrite P_merge by now apply everywhere_at_root.
  cbn [properties items].
  apply andb_true_iff. split.
  - match goal with |- context [if ?c then _ else _] => destruct c end;
      [|reflexivity].
    simpl. apply forallb_forall. apply Forall_forall.
    rewrite merged_properties_fill.
    apply (fill_Forall _ (fun kv => everywhere P (snd kv) = true));
      [constructor|].
    intros k _. cbn [snd]. cbv beta.
    match goal with
    | |- context [mergeSchemas ?x ?y] =>
        destruct x as [l|] eqn:El; destruct y as [r|] eqn:Er
    end; cbn [mergeSchemas nullish].
    + apply obj_get_In in El, Er.
      destruct ps as [lp|]; [|destruct El]. cbn [nullish] in El.
      destruct (properties b) as [rp|] eqn:Eb; [|destruct Er].
      cbn [nullish] in Er.
      specialize (IHp lp eq_refl). rewrite Forall_forall in IHp.
      apply (IHp (k, l) El r).
      * apply (everywhere_property P _ lp k l Ha eq_refl El).
      * apply (everywhere_property P b rp k r Hb Eb Er).
    + apply obj_get_In in El.
      destruct ps as [lp|]; [|destruct El]. cbn [nullish] in El.
      apply (everywhere_property P _ lp k l Ha eq_refl El).
    + apply obj_get_In in Er.
      destruct (properties b) as [rp|] eqn:Eb; [|destruct Er].
      cbn [nullish] in Er.
      apply (everywhere_property P b rp k r Hb Eb Er).
    + now apply everywhere_empty.
  - match goal with |- context [if ?c then _ else _] => destruct c end;
      [|reflexivity].
    cbn [items].
    destruct it as [l|]; destruct (items b) as [r|] eqn:Eb;
      cbn [mergeSchemas nullish].
    + apply (IHi l eq_refl).
      * apply (everywhere_items P _ l Ha eq_refl).
      * apply (everywhere_items P b r Hb Eb).
    + apply (everywhere_items P _ l Ha eq_refl).
    + apply (everywhere_items P b r Hb Eb).
    + now apply everywhere_empty.
Qed.

Lemma closed_mergeSchemas a b :
  (forall x, a = Some x -> everywhere P x = true) ->
  (forall y, b = Some y -> everywhere P y = true) ->
  everywhere P (mergeSchemas a b) = true.
Proof.
  intros Ha Hb. destruct a as [x|], b as [y|]; cbn [mergeSchemas nullish];
    auto using closed_merge_both, everywhere_empty.
Qed.

Hypothesis P_infer : forall v, P (inferSchema v) = true.

Lemma closed_unified xs : forall acc,
  (forall x, acc = Some x -> everywhere P x = true) ->
  Forall (fun item => everywhere P (inferSchema item) = true) xs ->
  forall x, unified xs acc = Some x -> everywhere P x = true.
Proof.
  unfold unified.
  induction xs as [|item xs IH]; intros acc Ha Hi x; simpl.
  - apply Ha.
  - inversion Hi; subst. apply IH; [|assumption].
    intros y [= <-]. apply closed_mergeSchemas; try assumption.
    now intros z [= <-].
Qed.

Lemma closed_inferSchema v : everywhere P (inferSchema v) = true.
Proof.
  induction v as [| | | |xs IH|es IH] using JsonValue_ind;
    try (rewrite everywhere_eq, P_infer; reflexivity).
  - rewrite everywhere_eq, P_infer, inferSchema_array. cbn [properties items].
    destruct (unified xs None) as [x|] eqn:E; cbn [nullish andb].
    + apply (closed_unified xs None); try assumption. discriminate.
    + now apply everywhere_empty.
  - rewrite everywhere_eq, P_infer, inferSchema_object. cbv zeta.
    cbn [properties items]. rewrite andb_true_r. cbn [andb].
    apply forallb_forall. apply Forall_forall.
    apply (inferred_properties_Forall
             (fun kv => everywhere P (snd kv) = true)); [constructor|].
    exact IH.
Qed.
End Closed.

Lemma everywhere_and P Q s :
  everywhere P s = true -> everywhere Q s = true ->
  everywhere (fun x => P x && Q x) s = true.
Proof.
  induction s as [d t ps it rq IHp IHi] using JsonSchema_ind.
  rewrite !everywhere_eq. cbn [properties items].
  intros HP HQ.
  apply andb_true_iff in HP, HQ. destruct HP as [HP HPi], HQ as [HQ HQi].
  apply andb_true_iff in HP, HQ. destruct HP as [HP HPp], HQ as [HQ HQp].
  rewrite HP, HQ. cbn [andb]. apply andb_true_iff. split.
  - destruct ps as [p|]; [|reflexivity].
    specialize (IHp p eq_refl).
    rewrite forallb_forall in *. rewrite Forall_forall in IHp.
    intros kv Hkv. apply (IHp _ Hkv); auto.
  - destruct it as [i|]; [|reflexivity]. now apply IHi.
Qed.

End ClosedFacts.

(* ================================================================== *)
(** ** The shape of inferred and merged schemas *)

Module ShapeFacts.
Import Js JsFacts MergeFacts InferFacts TagFacts KeyOrderFacts ClosedFacts.

Lemma tags_of_merged_type_incl types d p i r t :
  In t (tags (mkSchema d (merged_type types) p i r)) -> In t types.
Proof.
  unfold tags, normalizeTypes. cbn [type].
  destruct types as [|x [|y l]]; cbn [merged_type]; try tauto.
  destruct (String.eqb x ""); simpl; tauto.
Qed.

Lemma tags_merge_both_incl a b t :
  In t (tags (merge_both a b)) -> In t (tags a) \/ In t (tags b).
Proof.
  rewrite merge_both_unfold. cbv zeta. intros H.
  apply tags_of_merged_type_incl in H.
  rewrite set_from_In, in_app_iff in H. exact H.
Qed.

Lemma type_normal_nonblank s : type_normal (type s) = true -> nonblank (tags s).
Proof.
  unfold tags, normalizeTypes, nonblank.
  destruct (type s) as [[tag|ts]|]; cbn [type_normal]; intros H.
  - apply negb_true_iff in H. rewrite H. intros [E|[]]. subst.
    discriminate.
  - apply andb_true_iff in H. destruct H as [_ H].
    apply negb_true_iff in H. now apply has_false in H.
  - intros [].
Qed.

Lemma type_normal_merged types :
  nonblank types -> NoDup types -> type_normal (merged_type types) = true.
Proof.
  intros B N.
  destruct types as [|x [|y l]]; cbn [merged_type type_normal].
  - reflexivity.
  - apply negb_true_iff. destruct (String.eqb_spec x ""); [|reflexivity].
    exfalso. apply B. now left.
  - rewrite !andb_true_iff. repeat split.
    + now apply distinct_NoDup.
    + apply negb_true_iff. now apply has_false.
Qed.

Lemma merged_required_shape a b :
  match merged_required a b with
  | None => true
  | Some [] => false
  | Some names => distinct names
  end = true.
Proof.
  pose proof (merged_required_NoDup a b) as N.
  unfold merged_required in *. set (f := filter _ _) in *.
  destruct f as [|x f]; [reflexivity|]. cbn [nullish] in N.
  now apply distinct_NoDup.
Qed.

Lemma well_shaped_merge_both a b :
  well_shaped a = true -> well_shaped b = true ->
  well_shaped (merge_both a b) = true.
Proof.
  unfold well_shaped. intros Ha Hb.
  repeat (apply andb_true_iff in Ha; destruct Ha as [Ha ?]).
  repeat (apply andb_true_iff in Hb; destruct Hb as [Hb ?]).
  rewrite merge_both_dollar, merge_both_type, merge_both_properties,
    merge_both_items, merge_both_required.
  rewrite !has_tag_merge_both by discriminate.
  rewrite type_normal_merged.
  - destruct (has_tag a "object"), (has_tag b "object"),
             (has_tag a "array"), (has_tag b "array");
      cbn [andb orb implb is_some negb nullish];
      rewrite ?merged_required_shape; cbn [andb];
      try reflexivity;
      try (rewrite merged_properties_fill, fill_ordered by reflexivity;
           destruct (merged_required a b); reflexivity).
  - unfold nonblank. rewrite set_from_In, in_app_iff.
    pose proof (type_normal_nonblank a). pose proof (type_normal_nonblank b).
    unfold nonblank in *. tauto.
  - apply set_from_NoDup.
Qed.

Lemma inferred_properties_ordered es : forall acc,
  is_object acc = true -> is_object (inferred_properties es acc) = true.
Proof.
  unfold inferred_properties.
  induction es as [|kv es IH]; intros acc H; simpl; [assumption|].
  apply IH, obj_set_ordered, H.
Qed.

Lemma well_shaped_inferSchema v : well_shaped (inferSchema v) = true.
Proof.
  destruct v as [| |x| |xs|es]; try reflexivity.
  - simpl. now destruct (Number_isInteger x).
  - rewrite inferSchema_array. reflexivity.
  - rewrite inferSchema_object. cbv zeta. unfold well_shaped.
    cbn [dollar_schema type properties items required nullish is_some negb
         type_normal implb andb].
    pose proof (inferred_properties_ordered es [] eq_refl) as O.
    rewrite O.
    change (has_tag _ "object") with true. cbn [andb implb].
    unfold is_object in O. apply ordered_keys_distinct in O.
    destruct (keys (inferred_properties es [])); [reflexivity|].
    cbn [is_some implb andb]. now rewrite O.
Qed.

(** Every schema the inferrer builds is well shaped, at every level. *)
Lemma well_shaped_everywhere v : everywhere well_shaped (inferSchema v) = true.
Proof.
  apply closed_inferSchema.
  - apply well_shaped_merge_both.
  - reflexivity.
  - apply well_shaped_inferSchema.
Qed.

End ShapeFacts.

(* ================================================================== *)
(** ** The inferrer and the merger: further properties *)

Module SchemaMore.
Import Js JsFacts TrimFacts MergeFacts InferFacts TagFacts.
Import KeyOrderFacts ClosedFacts ShapeFacts.

Lemma ordinary_names_merge_both a b :
  ordinary_names a = true -> ordinary_names b = true ->
  ordinary_names (merge_both a b) = true.
Proof.
  unfold ordinary_names. intros Ha Hb.
  rewrite merge_both_properties.
  destruct (has_tag a "object" && has_tag b "object"); [|reflexivity].
  cbn [nullish]. apply forallb_forall. intros k Hk.
  apply keys_merged_properties_In in Hk.
  rewrite forallb_forall in Ha, Hb. destruct Hk; auto.
Qed.

Lemma ordinary_merge_both a b :
  ordinary_properties a = true -> ordinary_properties b = true ->
  ordinary_properties (merge_both a b) = true.
Proof.
  apply closed_merge_both; [apply ordinary_names_merge_both | reflexivity].
Qed.

Lemma ordinary_unified xs : forall acc,
  (forall x, acc = Some x -> ordinary_properties x = true) ->
  Forall (fun item => ordinary_properties (inferSchema item) = true) xs ->
  forall x, unified xs acc = Some x -> ordinary_properties x = true.
Proof.
  unfold unified.
  induction xs as [|item xs IH]; intros acc Ha Hi x; simpl.
  - apply Ha.
  - inversion Hi; subst. apply IH; [|assumption].
    intros y [= <-]. destruct acc as [l|]; cbn [mergeSchemas nullish].
    + apply ordinary_merge_both; auto.
    + assumption.
Qed.

Lemma ordinary_inferSchema v :
  ordinary_keys v = true -> ordinary_properties (inferSchema v) = true.
Proof.
  unfold ordinary_properties.
  induction v as [| | | |xs IH|es IH] using JsonValue_ind; intros H;
    try reflexivity.
  - rewrite everywhere_eq, inferSchema_array. cbn [properties items].
    cbn [ordinary_keys] in H. rewrite forallb_forall in H.
    destruct (unified xs None) as [x|] eqn:E; cbn [nullish andb].
    + change (ordinary_names (mkSchema None (Some (TypeOne "array")) None
                                       (Some x) None) && true
              && everywhere ordinary_names x = true).
      cbn [ordinary_names properties nullish keys map forallb andb].
      apply (ordinary_unified xs None); try assumption; [discriminate|].
      rewrite Forall_forall in *. intros item Hi. apply IH; auto.
    + reflexivity.
  - cbn [ordinary_keys] in H. rewrite forallb_forall in H.
    rewrite everywhere_eq, inferSchema_object. cbv zeta.
    cbn [properties items]. rewrite andb_true_r.
    apply andb_true_iff. split.
    + unfold ordinary_names. cbn [properties nullish].
      apply forallb_forall. intros k Hk.
      pose proof (inferred_properties_Forall
                    (fun kv => In (fst kv) (keys es)) es []) as F.
      assert (G : Forall (fun kv : string * JsonSchema =>
                            In (fst kv) (keys es))
                         (inferred_properties es [])).
      { apply F; [constructor|]. apply Forall_forall. intros kv Hkv.
        cbn [fst]. apply (in_map fst es kv Hkv). }
      apply in_map_iff in Hk. destruct Hk as [kv [<- Hkv]].
      rewrite Forall_forall in G. specialize (G _ Hkv).
      apply in_map_iff in G. destruct G as [kv' [E Hkv']].
      rewrite <- E. specialize (H _ Hkv').
      apply andb_true_iff in H. tauto.
    + apply forallb_forall. apply Forall_forall.
      apply (inferred_properties_Forall
               (fun kv => everywhere ordinary_names (snd kv) = true));
        [constructor|].
      rewrite Forall_forall in *. intros kv Hkv. apply IH; [assumption|].
      specialize (H _ Hkv). apply andb_true_iff in H. tauto.
Qed.

Lemma inferred_properties_fromEntries es acc :
  inferred_properties es acc
  = fold_left (fun o kv => obj_set o (fst kv) (snd kv))
              (map (fun kv => (fst kv, inferSchema (snd kv))) es) acc.
Proof.
  unfold inferred_properties. revert acc.
  induction es as [|kv es IH]; intros acc; simpl; [reflexivity|]. apply IH.
Qed.

Lemma inferSchema_object_map (es : Js.obj JsonValue) :
  is_object es = true ->
  inferSchema (JObject es)
  = mkSchema None (Some (TypeOne "object"))
             (Some (map (fun kv => (fst kv, inferSchema (snd kv))) es))
             None
             (match es with [] => None | _ => Some (keys es) end).
Proof.
  intros Ho. rewrite inferSchema_object. cbv zeta.
  assert (E : inferred_properties es []
              = map (fun kv => (fst kv, inferSchema (snd kv))) es).
  { rewrite inferred_properties_fromEntries.
    apply (fold_obj_set_ordered _ []). simpl.
    unfold is_object. now rewrite (keys_map inferSchema). }
  rewrite E, (keys_map inferSchema). now destruct es.
Qed.

(** X4.  For an object of a parsed value none of whose keys, at any
    depth, names a property of [Object.prototype], the inferred schema
    lists one property per key, in the order of the keys, each with the
    schema of its value, and requires every key, in the same order;
    [required] is left out for an object without keys. *)
Theorem inferSchema_object_fields (es : Js.obj JsonValue) :
  is_object es = true ->
  ordinary_keys (JObject es) = true ->
  inferSchema (JObject es)
  = mkSchema None (Some (TypeOne "object"))
             (Some (map (fun kv => (fst kv, inferSchema (snd kv))) es))
             None
             (match es with [] => None | _ => Some (keys es) end).
Proof. intros Ho _. now apply inferSchema_object_map. Qed.

Lemma inferSchema_object_fields_witness :
  inferSchema Samples.obj_ba
  = mkSchema None (Some (TypeOne "object"))
             (Some [("b", Samples.integer); ("a", Samples.integer)])
             None (Some ["b"; "a"]).
Proof.
  apply (inferSchema_object_fields
           [("b", Samples.num 2); ("a", Samples.num 1)]);
    reflexivity.
Defined.

Lemma inferred_properties_keys_NoDup es : forall acc,
  NoDup (keys acc) -> NoDup (keys (inferred_properties es acc)).
Proof.
  unfold inferred_properties.
  induction es as [|kv es IH]; intros acc H; simpl; [assumption|].
  apply IH, keys_set_NoDup, H.
Qed.

Lemma names_consistent_merge_both a b :
  names_consistent a = true -> names_consistent b = true ->
  names_consistent (merge_both a b) = true.
Proof.
  unfold names_consistent. intros Ha _.
  apply andb_true_iff in Ha. destruct Ha as [Ha _].
  apply andb_true_iff in Ha. destruct Ha as [Ha _].
  rewrite merge_both_properties, merge_both_required.
  destruct (has_tag a "object" && has_tag b "object"); [|reflexivity].
  cbn [nullish]. rewrite !andb_true_iff. repeat split.
  - apply forallb_forall. intros k Hk.
    apply merged_required_In in Hk. destruct Hk as [Hk _].
    rewrite forallb_forall in Ha. specialize (Ha k Hk).
    apply has_In. apply keys_merged_properties_In. left.
    now apply has_In.
  - apply distinct_NoDup, keys_merged_properties_NoDup.
  - apply distinct_NoDup, merged_required_NoDup.
Qed.

Lemma names_consistent_inferSchema v : names_consistent (inferSchema v) = true.
Proof.
  destruct v as [| |x| |xs|es]; try reflexivity.
  - rewrite inferSchema_array. reflexivity.
  - rewrite inferSchema_object. cbv zeta. unfold names_consistent.
    cbn [properties required nullish].
    pose proof (inferred_properties_keys_NoDup es [] (NoDup_nil _)) as N.
    apply distinct_NoDup in N.
    destruct (keys (inferred_properties es [])) as [|k ks] eqn:E;
      [reflexivity|].
    cbn [nullish]. rewrite N, !andb_true_r.
    apply forallb_forall. intros x Hx. unfold has_key. rewrite E.
    now apply has_In.
Qed.

(** X5.  In the schema inferred for a value none of whose keys names a
    property of [Object.prototype], at every level, every required name
    is the name of a property of the same schema, no property name
    occurs twice and no required name occurs twice. *)
Theorem names_consistent_everywhere (value : JsonValue) :
  ordinary_keys value = true ->
  everywhere names_consistent (inferSchema value) = true.
Proof.
  intros _. apply closed_inferSchema.
  - apply names_consistent_merge_both.
  - reflexivity.
  - apply names_consistent_inferSchema.
Qed.

Lemma names_consistent_everywhere_witness :
  everywhere names_consistent
    (inferSchema (JArray [Samples.obj_ab; Samples.obj_a])) = true.
Proof.
  apply (names_consistent_everywhere (JArray [Samples.obj_ab; Samples.obj_a])).
  reflexivity.
Defined.

Lemma known_tags_merge_both a b :
  known_tags a = true -> known_tags b = true ->
  known_tags (merge_both a b) = true.
Proof.
  unfold known_tags. rewrite !forallb_forall. intros Ha Hb t Ht.
  apply tags_merge_both_incl in Ht. destruct Ht; auto.
Qed.

(** X6.  Every type tag of the schema inferred for a value none of
    whose keys names a property of [Object.prototype] is, at every
    level, one of [null], [boolean], [integer], [number], [string],
    [array], [object]. *)
Theorem known_tags_everywhere (value : JsonValue) :
  ordinary_keys value = true ->
  everywhere known_tags (inferSchema value) = true.
Proof.
  intros _. apply closed_inferSchema.
  - apply known_tags_merge_both.
  - reflexivity.
  - intros v. unfold known_tags. rewrite inferSchema_tags.
    destruct v as [| |x| | |]; try reflexivity.
    cbn [inferred_tag]. now destruct (Number_isInteger x).
Qed.

Lemma known_tags_everywhere_witness :
  everywhere known_tags (inferSchema Samples.users) = true.
Proof.
  apply (known_tags_everywhere Samples.users). reflexivity.
Defined.

(** X7.  Away from the names of the properties of [Object.prototype],
    every schema inferred for a value is, at every level, in the form
    the merger writes: no [$schema]; [type] absent, one non-empty tag,
    or at least two different tags; [properties] and [required] only
    beside the tag [object] and [items] only beside the tag [array];
    [properties] in own-property order; [required] never an empty list;
    and no property is named like a property of [Object.prototype].  The
    merge of two schemas of this form has it too. *)
Theorem schemas_well_shaped :
  (forall value,
      ordinary_keys value = true ->
      everywhere well_shaped (inferSchema value) = true
      /\ ordinary_properties (inferSchema value) = true)
  /\ (forall a b,
         ordinary_properties a = true ->
         ordinary_properties b = true ->
         everywhere well_shaped a = true ->
         everywhere well_shaped b = true ->
         everywhere well_shaped (mergeSchemas (Some a) (Some b)) = true
         /\ ordinary_properties (mergeSchemas (Some a) (Some b)) = true).
Proof.
  split.
  - intros value Hv. split;
      [apply well_shaped_everywhere | now apply ordinary_inferSchema].
  - intros a b Oa Ob Ha Hb. cbn [mergeSchemas]. split.
    + apply closed_merge_both; try assumption.
      * apply well_shaped_merge_both.
      * reflexivity.
    + now apply ordinary_merge_both.
Qed.

Lemma schemas_well_shaped_witness :
  everywhere well_shaped
    (mergeSchemas (Some (inferSchema Samples.obj_ab))
                  (Some (inferSchema Samples.obj_a))) = true
  /\ ordinary_properties
       (mergeSchemas (Some (inferSchema Samples.obj_ab))
                     (Some (inferSchema Samples.obj_a))) = true.
Proof.
  apply (proj2 schemas_well_shaped); reflexivity.
Defined.

Lemma filter_all {A} (f : A -> bool) (l : list A) :
  (forall x, In x l -> f x = true) -> filter f l = l.
Proof.
  induction l as [|x l IH]; intros H; simpl; [reflexivity|].
  rewrite (H x) by now left. f_equal. apply IH. intros y Hy. apply H.
  now right.
Qed.

Lemma merged_type_same s :
  type_normal (type s) = true ->
  merged_type (set_from (tags s ++ tags s)) = type s.
Proof.
  unfold tags, normalizeTypes.
  destruct (type s) as [[tag|ts]|]; cbn [type_normal]; intros H.
  - apply negb_true_iff in H. rewrite H.
    unfold set_from. simpl. unfold set_add, has. simpl.
    now rewrite String.eqb_refl.
  - apply andb_true_iff in H. destruct H as [H _].
    apply andb_true_iff in H. destruct H as [D L].
    apply distinct_NoDup in D. rewrite set_from_twice by assumption.
    apply Nat.leb_le in L. destruct ts as [|x [|y l]]; simpl in L; try lia.
    reflexivity.
  - reflexivity.
Qed.

Lemma merged_required_same s :
  match required s with
  | None => true
  | Some [] => false
  | Some names => distinct names
  end = true ->
  merged_required s s = required s.
Proof.
  unfold merged_required. intros H.
  destruct (required s) as [[|x names]|]; try discriminate; [|reflexivity].
  cbn [nullish]. apply distinct_NoDup in H.
  rewrite set_from_distinct by assumption.
  rewrite filter_all; [reflexivity|]. intros y Hy. now apply has_In.
Qed.

Lemma schema_eq s s' :
  dollar_schema s = dollar_schema s' -> type s = type s' ->
  properties s = properties s' -> items s = items s' ->
  required s = required s' -> s = s'.
Proof. destruct s, s'; simpl; congruence. Qed.

Lemma merge_same_normal (s : JsonSchema) :
  normal_form s = true -> mergeSchemas (Some s) (Some s) = s.
Proof.
  unfold normal_form. cbn [mergeSchemas].
  induction s as [d t ps it rq IHp IHi] using JsonSchema_ind.
  intros H.
  pose proof (everywhere_at_root _ _ H) as R. cbv beta in R.
  apply andb_true_iff in R. destruct R as [W I].
  unfold well_shaped in W.
  repeat (apply andb_true_iff in W; destruct W as [W ?]).
  unfold root_invariant in I. apply andb_true_iff in I.
  destruct I as [Io Ia].
  cbn [dollar_schema type properties items required] in *.
  apply schema_eq;
    rewrite ?merge_both_dollar, ?merge_both_type, ?merge_both_properties,
      ?merge_both_items, ?merge_both_required;
    cbn [dollar_schema type properties items required];
    rewrite ?andb_diag.
  - now destruct d.
  - now apply (merged_type_same (mkSchema d t ps it rq)).
  - destruct (has_tag _ "object").
    + destruct ps as [p|]; [|discriminate]. cbn [nullish] in *. f_equal.
      match goal with Ho : is_object _ = true |- _ =>
        pose proof (ordered_keys_distinct _ Ho) as D;
        apply distinct_NoDup in D
      end.
      unfold merged_properties. cbv zeta.
      rewrite set_from_twice by assumption.
      rewrite fill_keys_of_object by assumption.
      apply map_fixed. apply Forall_forall. intros [k c] Hkc.
      cbn [fst]. f_equal.
      rewrite (obj_get_entry p k c D Hkc). cbn [mergeSchemas].
      specialize (IHp p eq_refl). rewrite Forall_forall in IHp.
      apply (IHp (k, c) Hkc).
      apply (everywhere_property _ _ p k c H eq_refl Hkc).
    + now destruct ps.
  - destruct (has_tag _ "array").
    + destruct it as [i|]; [|discriminate]. cbn [mergeSchemas]. f_equal.
      apply (IHi i eq_refl). apply (everywhere_items _ _ i H eq_refl).
    + now destruct it.
  - destruct (has_tag _ "object").
    + now apply (merged_required_same (mkSchema d t ps it rq)).
    + now destruct rq.
Qed.

(** X8.  Merging a schema in normal form with itself gives the schema
    back. *)
Theorem mergeSchemas_same (s : JsonSchema) :
  normal_form s = true -> mergeSchemas (Some s) (Some s) = s.
Proof. apply merge_same_normal. Qed.

Lemma mergeSchemas_same_witness :
  mergeSchemas (Some (inferSchema Samples.users))
               (Some (inferSchema Samples.users))
  = inferSchema Samples.users.
Proof.
  apply (mergeSchemas_same (inferSchema Samples.users)). reflexivity.
Defined.

Lemma normal_form_inferSchema v :
  structural_invariant (inferSchema v) = true ->
  normal_form (inferSchema v) = true.
Proof.
  intros H. unfold normal_form.
  apply everywhere_and; [apply well_shaped_everywhere | exact H].
Qed.

Lemma unified_repeat v s n :
  mergeSchemas (Some s) (Some (inferSchema v)) = s ->
  unified (repeat v n) (Some s) = Some s.
Proof.
  intros E. unfold unified.
  induction n as [|n IH]; cbn [repeat fold_left]; [reflexivity|].
  now rewrite E.
Qed.

(** X9.  When none of the keys of a value names a property of
    [Object.prototype] and its schema satisfies the structural invariant
    at every level, an array that repeats this value any number of times
    gets the schema of the array that holds it once. *)
Theorem inferSchema_repeated (value : JsonValue) (n : nat) :
  ordinary_keys value = true ->
  structural_invariant (inferSchema value) = true ->
  inferSchema (JArray (repeat value (S n))) = inferSchema (JArray [value]).
Proof.
  intros _ H. rewrite !inferSchema_array. do 2 f_equal.
  assert (E : unified (repeat value (S n)) None = Some (inferSchema value)).
  { change (unified (repeat value (S n)) None)
      with (unified (repeat value n) (Some (inferSchema value))).
    apply unified_repeat, merge_same_normal, normal_form_inferSchema, H. }
  rewrite E. reflexivity.
Qed.

Lemma inferSchema_repeated_witness :
  inferSchema (JArray (repeat Samples.users 3))
  = inferSchema (JArray [Samples.users]).
Proof.
  apply (inferSchema_repeated Samples.users 2); reflexivity.
Defined.

(** Without the invariant a repetition can change the schema: the
    items of [["x", {"a":1}]] have the tag [object] and no [properties],
    and merging them with themselves adds an empty [properties]. *)
Remark inferSchema_repeated_needs_invariant :
  let value := JArray [JString "x"; Samples.obj_a] in
  structural_invariant (inferSchema value) = false
  /\ inferSchema (JArray [value; value]) <> inferSchema (JArray [value]).
Proof. split; [reflexivity | discriminate]. Qed.

(** X10.  The type tags of the [items] schema inferred for an array are
    exactly the tags of its elements: [null], [boolean], [string],
    [array], [object], and [integer] or [number] for a number according
    to [Number.isInteger]; for an empty array there is none. *)
Theorem items_tags_are_element_tags
        (xs : list JsonValue) (u : JsonSchema) (t : string) :
  items (inferSchema (JArray xs)) = Some u ->
  (In t (tags u) <-> exists x, In x xs /\ inferred_tag x = t).
Proof.
  intros H. rewrite inferSchema_array in H. cbn [items] in H.
  injection H as <-. rewrite unified_items_tags, in_map_iff.
  split; intros [x Hx]; exists x; tauto.
Qed.

Lemma items_tags_are_element_tags_witness :
  In "number"
     (tags (mkSchema None (Some (TypeMany ["integer"; "number"]))
                     None None None))
  <-> exists x,
      In x [Samples.num 1; Samples.five_and_a_half]
      /\ inferred_tag x = "number".
Proof.
  apply (items_tags_are_element_tags
           [Samples.num 1; Samples.five_and_a_half]).
  reflexivity.
Defined.

Lemma obj_get_has {V} (o : obj V) k :
  has (keys o) k = is_some (obj_get o k).
Proof.
  destruct (obj_get o k) as [v|] eqn:E; cbn [is_some].
  - apply obj_get_In, (in_map fst) in E. now apply has_In.
  - apply has_false. now apply obj_get_None.
Qed.

(** X11.  When both operands have the tag [object] and none of their
    property names, at any level, names a property of
    [Object.prototype], the merged [properties] has exactly the keys of
    either side; a key of both sides holds the merge of its two schemas,
    a key of one side holds that side's schema unchanged. *)
Theorem merged_properties_lookup (a b : JsonSchema) (k : string) :
  ordinary_properties a = true ->
  ordinary_properties b = true ->
  has_tag a "object" = true ->
  has_tag b "object" = true ->
  exists ps,
    properties (mergeSchemas (Some a) (Some b)) = Some ps
    /\ obj_get ps k
       = match obj_get (nullish (properties a) []) k,
               obj_get (nullish (properties b) []) k with
         | Some l, Some r => Some (mergeSchemas (Some l) (Some r))
         | Some l, None => Some l
         | None, Some r => Some r
         | None, None => None
         end.
Proof.
  intros _ _ Ha Hb. cbn [mergeSchemas].
  rewrite merge_both_properties, Ha, Hb. cbn [andb].
  eexists. split; [reflexivity|].
  rewrite obj_get_merged_properties, has_app.
  pose proof (obj_get_has (nullish (properties a) []) k) as Ea.
  pose proof (obj_get_has (nullish (properties b) []) k) as Eb.
  destruct (obj_get (nullish (properties a) []) k) as [l|];
    destruct (obj_get (nullish (properties b) []) k) as [r|];
    cbn [is_some] in Ea, Eb; rewrite Ea, Eb; reflexivity.
Qed.

Lemma merged_properties_lookup_witness :
  exists ps,
    properties (mergeSchemas (Some (inferSchema Samples.obj_a))
                             (Some (inferSchema Samples.obj_ab))) = Some ps
    /\ obj_get ps "b" = Some Samples.integer.
Proof.
  apply (merged_properties_lookup
           (inferSchema Samples.obj_a) (inferSchema Samples.obj_ab) "b");
    reflexivity.
Defined.

Lemma inferred_tag_trimStructure v n :
  inferred_tag (trimStructure v n) = inferred_tag v.
Proof. destruct v; reflexivity. Qed.

(** X12.  Trimming never changes the type of the schema inferred for a
    value, and for an array it never adds a type tag to the inferred
    [items]: every tag of the items of the trimmed array is a tag of the
    items of the original. *)
Theorem trimStructure_inferSchema_tags (value : JsonValue) (limit : Z) :
  type (inferSchema (trimStructure value limit)) = type (inferSchema value)
  /\ forall u' t,
      items (inferSchema (trimStructure value limit)) = Some u' ->
      In t (tags u') ->
      exists u, items (inferSchema value) = Some u /\ In t (tags u).
Proof.
  split.
  - now rewrite !inferSchema_type, inferred_tag_trimStructure.
  - intros u' t Hu Ht.
    destruct value as [| | | |xs|es];
      try (cbn [trimStructure] in Hu;
           rewrite inferSchema_scalar in Hu by reflexivity; discriminate).
    + rewrite trimStructure_array in Hu.
      rewrite inferSchema_array in *. cbn [items] in *.
      injection Hu as <-. eexists. split; [reflexivity|].
      rewrite unified_items_tags in *.
      rewrite map_map in Ht. apply in_map_iff in Ht.
      destruct Ht as [x [<- Hx]]. rewrite inferred_tag_trimStructure.
      apply in_map. unfold slice0 in Hx. now apply firstn_In in Hx.
    + cbn [trimStructure] in Hu. rewrite inferSchema_object in Hu.
      discriminate.
Qed.

(** X13.  The merged type set is the union of the type sets of the two
    operands: a non-empty tag is a tag of the merge exactly when it is a
    tag of one of them; the merged [type] names no tag twice, and it is
    an array only for two tags or more. *)
Theorem merge_type_union (a b : JsonSchema) :
  (forall t, t <> "" ->
             has_tag (mergeSchemas (Some a) (Some b)) t
             = has_tag a t || has_tag b t)
  /\ match type (mergeSchemas (Some a) (Some b)) with
     | Some (TypeMany ts) => NoDup ts /\ 2 <= length ts
     | _ => True
     end.
Proof.
  cbn [mergeSchemas]. split.
  - intros t Ht. now apply has_tag_merge_both.
  - rewrite merge_both_type.
    pose proof (set_from_NoDup (tags a ++ tags b)) as N.
    destruct (set_from (tags a ++ tags b)) as [|x [|y l]];
      cbn [merged_type]; auto.
    split; [assumption | simpl; lia].
Qed.

Lemma obj_get_perm {V} (o o' : obj V) k :
  NoDup (keys o) -> NoDup (keys o') -> Permutation o o' ->
  obj_get o k = obj_get o' k.
Proof.
  intros N N' P.
  destruct (obj_get o k) as [v|] eqn:E.
  - symmetry. apply obj_get_entry; [assumption|].
    apply (Permutation_in _ P). now apply obj_get_In.
  - symmetry. apply obj_get_None. intros H.
    apply obj_get_None in E. apply E.
    apply (Permutation_in k (Permutation_map fst (Permutation_sym P)) H).
Qed.

(** X23.  Two objects of parsed values with the same entries in
    different key orders get schemas that differ at most in the order of
    their property keys and required names. *)
Theorem inferSchema_key_order (es es' : Js.obj JsonValue) :
  is_object es = true -> is_object es' = true ->
  Permutation es es' ->
  schema_alike (inferSchema (JObject es)) (inferSchema (JObject es')).
Proof.
  intros Ho Ho' P.
  rewrite !inferSchema_object_map by assumption.
  assert (N : forall o : obj JsonValue, is_object o = true -> NoDup (keys o)).
  { intros o H. now apply distinct_NoDup, ordered_keys_distinct. }
  constructor; cbn [dollar_schema type properties items required].
  - reflexivity.
  - constructor. constructor.
  - constructor. constructor.
    + rewrite !(keys_map inferSchema). now apply Permutation_map.
    + intros k. rewrite !(obj_get_map inferSchema).
      rewrite (obj_get_perm es es' k) by auto.
      destruct (obj_get es' k); constructor.
      apply AlikeFacts.schema_alike_refl.
  - constructor.
  - pose proof (Permutation_length P) as L.
    destruct es, es'; try discriminate; constructor.
    now apply Permutation_map.
Qed.

Lemma inferSchema_key_order_witness :
  schema_alike (inferSchema Samples.obj_ab) (inferSchema Samples.obj_ba).
Proof.
  apply (inferSchema_key_order
           [("a", Samples.num 1); ("b", Samples.num 2)]
           [("b", Samples.num 2); ("a", Samples.num 1)]);
    try reflexivity.
  apply perm_swap.
Defined.

End SchemaMore.

(* ================================================================== *)
(** ** The tree view *)

Module ViewFacts.
Import Js JsFacts TrimFacts View.

Section Render.
Variable JSON_stringify : string -> string.
Variable Number_toString : spec_float -> string.

Local Abbreviation renderNode := (renderNode JSON_stringify Number_toString).
Local Abbreviation renderJson := (renderJson JSON_stringify Number_toString).
Local Abbreviation forEach_item := (forEach_item JSON_stringify Number_toString).
Local Abbreviation forEach_entry := (forEach_entry JSON_stringify Number_toString).

Lemma renderNode_array c xs path d isLast keyPrefix :
  renderNode c (JArray xs) path d isLast keyPrefix
  = let prefix := nullish keyPrefix "" in
    let comma := if isLast then "" else "," in
    if has c path
    then [pushLine (prefix ++ "[… " ++ dec (length xs) ++ "]" ++ comma) d
                   (Some (path, true))]
    else pushLine (prefix ++ "[") d (Some (path, false))
         :: forEach_item c path d (length xs) 0 xs
         ++ [pushLine ("]" ++ comma) d None].
Proof.
  cbn [View.renderNode]. cbv zeta. destruct (has c path); [reflexivity|].
  do 2 f_equal. remember (length xs) as count eqn:Ec. clear Ec.
  match goal with
  | |- ?F 0 xs = _ =>
      enough (G : forall index,
                 F index xs = forEach_item c path d count index xs)
        by apply G
  end.
  induction xs as [|x xs IH]; intros index; [reflexivity|].
  cbn [View.forEach_item]. rewrite <- IH. reflexivity.
Qed.

Lemma renderNode_object c es path d isLast keyPrefix :
  renderNode c (JObject es) path d isLast keyPrefix
  = let prefix := nullish keyPrefix "" in
    let comma := if isLast then "" else "," in
    if has c path
    then [pushLine (prefix ++ "{… " ++ dec (length es) ++ "}" ++ comma) d
                   (Some (path, true))]
    else pushLine (prefix ++ "{") d (Some (path, false))
         :: forEach_entry c path d (length es) 0 es
         ++ [pushLine ("}" ++ comma) d None].
Proof.
  cbn [View.renderNode]. cbv zeta. destruct (has c path); [reflexivity|].
  do 2 f_equal. remember (length es) as count eqn:Ec. clear Ec.
  match goal with
  | |- ?F 0 es = _ =>
      enough (G : forall index,
                 F index es = forEach_entry c path d count index es)
        by apply G
  end.
  induction es as [|[k v] es IH]; intros index; [reflexivity|].
  cbn [View.forEach_entry]. rewrite <- IH. reflexivity.
Qed.

Lemma renderNode_scalar c v path d isLast keyPrefix :
  is_scalar v = true ->
  renderNode c v path d isLast keyPrefix
  = [pushLine (nullish keyPrefix ""
               ++ formatPrimitive JSON_stringify Number_toString v
               ++ (if isLast then "" else ",")) d None].
Proof. destruct v; try discriminate; reflexivity. Qed.

(** *** The toggles, in order *)

Lemma toggles_app xs ys : toggles (xs ++ ys) = toggles xs ++ toggles ys.
Proof. unfold toggles. apply flat_map_app. Qed.

Lemma toggles_cons l ls :
  toggles (l :: ls)
  = match options l with Some t => [t] | None => [] end ++ toggles ls.
Proof. reflexivity. Qed.

Lemma toggles_plain l : options l = None -> toggles [l] = [].
Proof. unfold toggles. cbn. now intros ->. Qed.

Lemma path_string_snoc steps s :
  path_string (steps ++ [s]) = step_path (path_string steps) s.
Proof. unfold path_string, path_from. now rewrite fold_left_app. Qed.

Lemma shown_containers_array c steps xs :
  shown_containers c steps (JArray xs)
  = steps :: (if has c (path_string steps) then []
              else shown_items c steps 0 xs).
Proof.
  cbn [shown_containers]. f_equal.
  destruct (has c (path_string steps)); [reflexivity|].
  generalize 0 as index.
  induction xs as [|x xs IH]; intros index; [reflexivity|].
  cbn [shown_items]. now rewrite <- IH.
Qed.

Lemma renderNode_toggles c node : forall steps d isLast keyPrefix,
  toggles (renderNode c node (path_string steps) d isLast keyPrefix)
  = map (fun st => (path_string st, has c (path_string st)))
        (shown_containers c steps node).
Proof.
  induction node as [| | | |xs IH|es IH] using JsonValue_ind;
    intros steps d isLast keyPrefix; try reflexivity.
  - rewrite renderNode_array, shown_containers_array. cbv zeta.
    destruct (has c (path_string steps)) eqn:E;
      [cbn; now rewrite E|].
    rewrite toggles_cons, toggles_app, toggles_plain by reflexivity.
    cbn [pushLine options app map]. rewrite E, app_nil_r.
    match goal with |- [?t] ++ ?l = ?t :: ?r => enough (G : l = r) by now rewrite G end.
    generalize (length xs) as count. generalize 0 as index.
    induction IH as [|x xs Hx IH IHxs]; intros index count; [reflexivity|].
    cbn [View.forEach_item shown_items].
    rewrite toggles_app, map_app, <- path_string_snoc, Hx, IHxs.
    reflexivity.
  - rewrite renderNode_object. cbn [shown_containers]. cbv zeta.
    destruct (has c (path_string steps)) eqn:E;
      [cbn; now rewrite E|].
    rewrite toggles_cons, toggles_app, toggles_plain by reflexivity.
    cbn [pushLine options app map]. rewrite E, app_nil_r.
    match goal with |- [?t] ++ ?l = ?t :: ?r => enough (G : l = r) by now rewrite G end.
    generalize (length es) as count. generalize 0 as index.
    induction IH as [|[k v] es Hx IH IHes]; intros index count;
      [reflexivity|].
    cbn [View.forEach_entry flat_map fst snd]. cbn [snd] in Hx.
    rewrite toggles_app, map_app, <- path_string_snoc, Hx, IHes.
    reflexivity.
Qed.

(** *** The lines of the loops *)

Lemma In_forEach_item c path d count line : forall rest index,
  In line (forEach_item c path d count index rest) <->
  exists i x,
    nth_error rest i = Some x
    /\ In line (renderNode c x (step_path path (Index (index + i))) (S d)
                           (index + i =? count - 1)%nat None).
Proof.
  induction rest as [|y rest IH]; intros index; cbn [View.forEach_item].
  - split; [intros [] | intros [[|i] [x [H _]]]; discriminate].
  - rewrite in_app_iff, IH. split.
    + intros [H|[i [x [Hn H]]]].
      * exists 0, y. rewrite Nat.add_0_r. auto.
      * exists (S i), x. rewrite Nat.add_succ_r. auto.
    + intros [[|i] [x [Hn H]]].
      * injection Hn as ->. rewrite Nat.add_0_r in H. auto.
      * right. exists i, x. rewrite Nat.add_succ_r in H. auto.
Qed.

Lemma In_forEach_entry c path d count line : forall rest index,
  In line (forEach_entry c path d count index rest) <->
  exists i k v,
    nth_error rest i = Some (k, v)
    /\ In line (renderNode c v (step_path path (Key k)) (S d)
                           (index + i =? count - 1)%nat
                           (Some (quote ++ k ++ quote ++ ": ")%string)).
Proof.
  induction rest as [|[k0 v0] rest IH]; intros index;
    cbn [View.forEach_entry].
  - split; [intros [] | intros [[|i] [k [v [H _]]]]; discriminate].
  - rewrite in_app_iff, IH. split.
    + intros [H|[i [k [v [Hn H]]]]].
      * exists 0, k0, v0. rewrite Nat.add_0_r. auto.
      * exists (S i), k, v. rewrite Nat.add_succ_r. auto.
    + intros [[|i] [k [v [Hn H]]]].
      * injection Hn as -> ->. rewrite Nat.add_0_r in H. auto.
      * right. exists i, k, v. rewrite Nat.add_succ_r in H. auto.
Qed.

(** *** Only membership in the set matters *)

Lemma renderNode_ext c c' node :
  (forall p, has c p = has c' p) ->
  forall path d isLast keyPrefix,
    renderNode c node path d isLast keyPrefix
    = renderNode c' node path d isLast keyPrefix.
Proof.
  intros E.
  induction node as [| | | |xs IH|es IH] using JsonValue_ind;
    intros path d isLast keyPrefix; try reflexivity.
  - rewrite !renderNode_array. cbv zeta. rewrite (E path).
    destruct (has c' path); [reflexivity|]. do 2 f_equal.
    generalize (length xs) as count. generalize 0 as index.
    induction IH as [|x xs Hx IH IHxs]; intros index count; [reflexivity|].
    cbn [View.forEach_item]. now rewrite Hx, IHxs.
  - rewrite !renderNode_object. cbv zeta. rewrite (E path).
    destruct (has c' path); [reflexivity|]. do 2 f_equal.
    generalize (length es) as count. generalize 0 as index.
    induction IH as [|[k v] es Hx IH IHes]; intros index count;
      [reflexivity|].
    cbn [View.forEach_entry]. cbn [snd] in Hx. now rewrite Hx, IHes.
Qed.

(** *** Counting lines *)

Lemma renderNode_length_expanded node : forall path d isLast keyPrefix,
  length (renderNode [] node path d isLast keyPrefix)
  = node_count node + container_count node.
Proof.
  induction node as [| | | |xs IH|es IH] using JsonValue_ind;
    intros path d isLast keyPrefix; try reflexivity.
  - rewrite renderNode_array. cbv zeta. cbn [has existsb].
    cbn [length node_count container_count]. rewrite length_app.
    cbn [length]. f_equal.
    assert (G : forall index count,
               length (forEach_item [] path d count index xs)
               = fold_right (fun x n => node_count x + n) 0 xs
                 + fold_right (fun x n => container_count x + n) 0 xs).
    { induction IH as [|x xs Hx IH IHxs]; intros index count;
        [reflexivity|].
      cbn [View.forEach_item fold_right].
      rewrite length_app, Hx, IHxs. lia. }
    rewrite G. lia.
  - rewrite renderNode_object. cbv zeta. cbn [has existsb].
    cbn [length node_count container_count]. rewrite length_app.
    cbn [length]. f_equal.
    assert (G : forall index count,
               length (forEach_entry [] path d count index es)
               = fold_right (fun kv n => node_count (snd kv) + n) 0 es
                 + fold_right (fun kv n => container_count (snd kv) + n) 0 es).
    { induction IH as [|[k v] es Hx IH IHes]; intros index count;
        [reflexivity|].
      cbn [View.forEach_entry fold_right snd] in *.
      rewrite length_app, Hx, IHes. lia. }
    rewrite G. lia.
Qed.

Lemma renderNode_length_mono c c' node :
  (forall p, has c p = true -> has c' p = true) ->
  forall path d isLast keyPrefix,
    1 <= length (renderNode c' node path d isLast keyPrefix)
    <= length (renderNode c node path d isLast keyPrefix).
Proof.
  intros E.
  induction node as [| | | |xs IH|es IH] using JsonValue_ind;
    intros path d isLast keyPrefix; try (simpl; lia).
  - rewrite !renderNode_array. cbv zeta.
    pose proof (E path) as Ep.
    destruct (has c path); [rewrite Ep by reflexivity; simpl; lia|].
    destruct (has c' path);
      cbn [length]; rewrite ?length_app; cbn [length]; [lia|].
    assert (G : forall index count,
               length (forEach_item c' path d count index xs)
               <= length (forEach_item c path d count index xs)).
    { induction IH as [|x xs Hx IH IHxs]; intros index count; [simpl; lia|].
      cbn [View.forEach_item]. rewrite !length_app.
      specialize (Hx (step_path path (Index index)) (S d)
                     (index =? count - 1)%nat None).
      specialize (IHxs (S index) count). lia. }
    specialize (G 0 (length xs)). lia.
  - rewrite !renderNode_object. cbv zeta.
    pose proof (E path) as Ep.
    destruct (has c path); [rewrite Ep by reflexivity; simpl; lia|].
    destruct (has c' path);
      cbn [length]; rewrite ?length_app; cbn [length]; [lia|].
    assert (G : forall index count,
               length (forEach_entry c' path d count index es)
               <= length (forEach_entry c path d count index es)).
    { induction IH as [|[k v] es Hx IH IHes]; intros index count;
        [simpl; lia|].
      cbn [View.forEach_entry]. rewrite !length_app. cbn [snd] in Hx.
      specialize (Hx (step_path path (Key k)) (S d)
                     (index =? count - 1)%nat
                     (Some (quote ++ k ++ quote ++ ": ")%string)).
      specialize (IHes (S index) count). lia. }
    specialize (G 0 (length es)). lia.
Qed.

(** *** Which lines carry a toggle *)

Lemma path_from_cons path s steps :
  path_from path (s :: steps) = path_from (step_path path s) steps.
Proof. reflexivity. Qed.

Lemma open_ancestors_cons c path s steps :
  has c path = false ->
  (forall n, n < length steps ->
             has c (path_from (step_path path s) (firstn n steps)) = false) ->
  forall n, n < length (s :: steps) ->
            has c (path_from path (firstn n (s :: steps))) = false.
Proof.
  intros H0 H [|n] Hn; [exact H0|].
  cbn [firstn]. rewrite path_from_cons. apply H. simpl in Hn. lia.
Qed.

Lemma renderNode_toggle_sound c node :
  well_formed node = true ->
  forall path d isLast keyPrefix line p col,
    In line (renderNode c node path d isLast keyPrefix) ->
    options line = Some (p, col) ->
    exists steps node',
      p = path_from path steps
      /\ node_at node steps = Some node'
      /\ is_scalar node' = false
      /\ depth line = d + length steps
      /\ col = has c p
      /\ (forall n, n < length steps ->
                    has c (path_from path (firstn n steps)) = false).
Proof.
  assert (Root : forall top path d b,
             is_scalar top = false -> b = has c path ->
             exists steps node',
               path = path_from path steps
               /\ node_at top steps = Some node'
               /\ is_scalar node' = false
               /\ d = d + length steps
               /\ b = has c path
               /\ (forall n, n < length steps ->
                      has c (path_from path (firstn n steps)) = false)).
  { intros top path d b Hs Hb. exists [], top. cbn.
    rewrite Nat.add_0_r. repeat split; auto. intros n Hn. lia. }
  induction node as [| | | |xs IH|es IH] using JsonValue_ind;
    intros W path d isLast keyPrefix line p col Hin Ho;
    try (destruct Hin as [<-|[]]; discriminate).
  - apply well_formed_array in W.
    rewrite renderNode_array in Hin. cbv zeta in Hin.
    destruct (has c path) eqn:Ec.
    + destruct Hin as [<-|[]]. injection Ho as <- <-.
      apply Root; [reflexivity | now rewrite Ec].
    + destruct Hin as [<-|Hin].
      * injection Ho as <- <-.
        apply Root; [reflexivity | now rewrite Ec].
      * apply in_app_iff in Hin. destruct Hin as [Hin|[<-|[]]];
          [|discriminate].
        apply In_forEach_item in Hin. destruct Hin as [i [x [Hn Hin]]].
        pose proof (nth_error_In _ _ Hn) as Hx.
        rewrite Forall_forall in IH, W.
        destruct (IH x Hx (W x Hx) _ _ _ _ _ _ _ Hin Ho)
          as [steps [node' [Ep [Hnode [Hs [Hd [Hc Ha]]]]]]].
        exists (Index i :: steps), node'. rewrite path_from_cons.
        cbn [node_at]. rewrite Hn.
        repeat split; auto; [cbn [length]; lia|].
        now apply open_ancestors_cons.
  - apply well_formed_object in W. destruct W as [Wo W].
    rewrite renderNode_object in Hin. cbv zeta in Hin.
    destruct (has c path) eqn:Ec.
    + destruct Hin as [<-|[]]. injection Ho as <- <-.
      apply Root; [reflexivity | now rewrite Ec].
    + destruct Hin as [<-|Hin].
      * injection Ho as <- <-.
        apply Root; [reflexivity | now rewrite Ec].
      * apply in_app_iff in Hin. destruct Hin as [Hin|[<-|[]]];
          [|discriminate].
        apply In_forEach_entry in Hin.
        destruct Hin as [i [k [v [Hn Hin]]]].
        pose proof (nth_error_In _ _ Hn) as Hx.
        rewrite Forall_forall in IH, W.
        destruct (IH (k, v) Hx (W (k, v) Hx) _ _ _ _ _ _ _ Hin Ho)
          as [steps [node' [Ep [Hnode [Hs [Hd [Hc Ha]]]]]]].
        exists (Key k :: steps), node'. rewrite path_from_cons.
        cbn [node_at].
        assert (Hg : obj_get es k = Some v).
        { apply KeyOrderFacts.obj_get_entry; [|exact Hx].
          apply KeyOrderFacts.distinct_NoDup.
          apply KeyOrderFacts.ordered_keys_distinct. exact Wo. }
        rewrite Hg. cbn [snd] in Hnode.
        repeat split; auto; [cbn [length]; lia|].
        now apply open_ancestors_cons.
Qed.

Lemma renderNode_first_line c node path d isLast keyPrefix :
  is_scalar node = false ->
  exists line,
    In line (renderNode c node path d isLast keyPrefix)
    /\ options line = Some (path, has c path)
    /\ depth line = d.
Proof.
  destruct node as [| | | |xs|es]; try discriminate; intros _.
  - rewrite renderNode_array. cbv zeta.
    destruct (has c path); eexists; (split; [now left | split; reflexivity]).
  - rewrite renderNode_object. cbv zeta.
    destruct (has c path); eexists; (split; [now left | split; reflexivity]).
Qed.

Lemma renderNode_toggle_complete c steps : forall node path d isLast keyPrefix node',
  node_at node steps = Some node' ->
  is_scalar node' = false ->
  (forall n, n < length steps ->
             has c (path_from path (firstn n steps)) = false) ->
  exists line,
    In line (renderNode c node path d isLast keyPrefix)
    /\ options line
       = Some (path_from path steps, has c (path_from path steps))
    /\ depth line = d + length steps.
Proof.
  induction steps as [|s steps IH];
    intros node path d isLast keyPrefix node' Hn Hs Hopen.
  - cbn in Hn. injection Hn as <-. cbn [path_from fold_left length].
    rewrite Nat.add_0_r. now apply renderNode_first_line.
  - assert (H0 : has c path = false) by (apply (Hopen 0); simpl; lia).
    assert (Hrest : forall n, n < length steps ->
               has c (path_from (step_path path s) (firstn n steps)) = false).
    { intros n Hlt. rewrite <- path_from_cons.
      apply (Hopen (S n)). simpl. lia. }
    destruct s as [k|i]; cbn [node_at] in Hn.
    + destruct node as [| | | |xs|es]; try discriminate.
      destruct (obj_get es k) as [v|] eqn:Eg; [|discriminate].
      apply obj_get_In in Eg. apply In_nth_error in Eg.
      destruct Eg as [j Ej].
      destruct (IH v (step_path path (Key k)) (S d)
                   (0 + j =? length es - 1)%nat
                   (Some (quote ++ k ++ quote ++ ": ")%string)
                   node' Hn Hs Hrest) as [line [Hin [Ho Hd]]].
      exists line. rewrite path_from_cons. cbn [length].
      split; [|split; [exact Ho | lia]].
      rewrite renderNode_object. cbv zeta. rewrite H0. right.
      apply in_or_app. left. apply In_forEach_entry. eauto.
    + destruct node as [| | | |xs|es]; try discriminate.
      destruct (nth_error xs i) as [x|] eqn:Ei; [|discriminate].
      destruct (IH x (step_path path (Index i)) (S d)
                   (0 + i =? length xs - 1)%nat None
                   node' Hn Hs Hrest) as [line [Hin [Ho Hd]]].
      exists line. rewrite path_from_cons. cbn [length].
      split; [|split; [exact Ho | lia]].
      rewrite renderNode_array. cbv zeta. rewrite H0. right.
      apply in_or_app. left. apply In_forEach_item. eauto.
Qed.

End Render.

(** *** Toggling *)

Lemma has_filter_neq l p q :
  has (filter (fun x => negb (String.eqb x p)) l) q
  = has l q && negb (String.eqb q p).
Proof.
  unfold has. induction l as [|x l IH]; [reflexivity|]. cbn [filter].
  destruct (String.eqb x p) eqn:Exp; cbn [negb existsb]; rewrite IH.
  - apply String.eqb_eq in Exp. subst x.
    destruct (String.eqb q p); simpl;
      [now rewrite andb_false_r | reflexivity].
  - destruct (String.eqb q x) eqn:Eqx; [|reflexivity].
    apply String.eqb_eq in Eqx. subst x. rewrite Exp. reflexivity.
Qed.

Lemma has_toggleCollapsed p prev q :
  has (toggleCollapsed p prev) q
  = if String.eqb q p then negb (has prev p) else has prev q.
Proof.
  unfold toggleCollapsed. cbv zeta.
  rewrite (MergeFacts.has_set_from prev p).
  destruct (has prev p) eqn:E.
  - rewrite has_filter_neq, MergeFacts.has_set_from.
    destruct (String.eqb q p); simpl;
      [now rewrite andb_false_r | now rewrite andb_true_r].
  - rewrite has_app, MergeFacts.has_set_from.
    unfold has at 2. cbn [existsb]. rewrite orb_false_r.
    destruct (String.eqb q p) eqn:Eq; [|now rewrite orb_false_r].
    apply String.eqb_eq in Eq. subst q. now rewrite E.
Qed.

End ViewFacts.

(* ================================================================== *)
(** ** Structural paths *)

Module PathFacts.
Import Js View.

Local Open Scope string_scope.

Lemma append_assoc (a b c : string) : (a ++ b) ++ c = a ++ (b ++ c).
Proof. induction a as [|x a IH]; simpl; [reflexivity | now rewrite IH]. Qed.

Lemma append_inj_l (a b c : string) : a ++ b = a ++ c -> b = c.
Proof.
  induction a as [|x a IH]; simpl; [auto|]. intros [= H]. now apply IH.
Qed.

Lemma path_from_segments steps : forall path,
  path_from path steps = path ++ segments steps.
Proof.
  induction steps as [|s steps IH]; intros path; cbn [path_from fold_left].
  - cbn [segments]. induction path; simpl; congruence.
  - fold (path_from (step_path path s) steps). rewrite IH.
    cbn [segments]. rewrite <- append_assoc. f_equal.
    destruct s; cbn [step_path segment]; reflexivity.
Qed.

Lemma segments_delimited steps : delimited (segments steps).
Proof. destruct steps as [|[k|i] steps]; simpl; auto. Qed.

Lemma plain_split k : forall k' r r',
  plain_key k = true -> plain_key k' = true ->
  delimited r -> delimited r' ->
  k ++ r = k' ++ r' -> k = k' /\ r = r'.
Proof.
  assert (Clash : forall c k1 r1 r2,
             plain_key (String c k1) = true -> delimited r2 ->
             r2 = String c (k1 ++ r1) -> False).
  { intros c k1 r1 r2 Hp Hd E. subst r2. cbn in Hd, Hp.
    apply andb_true_iff in Hp. destruct Hp as [Hp _].
    apply andb_true_iff in Hp. destruct Hp as [H1 H2].
    apply negb_true_iff in H1, H2.
    destruct Hd as [->| ->]; discriminate. }
  induction k as [|c k IH]; intros [|c' k'] r r' Hk Hk' Hr Hr' E; simpl in E.
  - split; [reflexivity | exact E].
  - exfalso. apply (Clash c' k' r' r Hk' Hr E).
  - exfalso. symmetry in E. apply (Clash c k r r' Hk Hr' E).
  - injection E as -> E.
    cbn [plain_key] in Hk, Hk'.
    apply andb_true_iff in Hk, Hk'. destruct Hk as [_ Hk], Hk' as [_ Hk'].
    destruct (IH k' r r' Hk Hk' Hr Hr' E) as [-> ->]. auto.
Qed.

Lemma digits_split d : forall d' r r',
  all_digits d = true -> all_digits d' = true ->
  d ++ "]" ++ r = d' ++ "]" ++ r' -> d = d' /\ r = r'.
Proof.
  induction d as [|c d IH]; intros [|c' d'] r r' Hd Hd' E; simpl in E.
  - injection E as ->. auto.
  - injection E as <- _. discriminate.
  - injection E as -> _. discriminate.
  - injection E as -> E.
    cbn [all_digits] in Hd, Hd'.
    apply andb_true_iff in Hd, Hd'. destruct Hd as [_ Hd], Hd' as [_ Hd'].
    destruct (IH d' r r' Hd Hd' E) as [-> ->]. auto.
Qed.

Lemma dec_digits n : all_digits (dec n) = true.
Proof.
  unfold dec. generalize (Nat.to_uint n) as u.
  induction u; simpl; auto.
Qed.

Lemma dec_inj m n : dec m = dec n -> m = n.
Proof.
  unfold dec. intros E.
  apply (f_equal NilEmpty.uint_of_string) in E.
  rewrite !NilEmpty.usu in E. injection E as E.
  apply (f_equal Nat.of_uint) in E.
  now rewrite !DecimalNat.Unsigned.of_to in E.
Qed.

Lemma segments_inj p : forall q,
  forallb plain_step p = true -> forallb plain_step q = true ->
  segments p = segments q -> p = q.
Proof.
  induction p as [|s p IH]; intros [|s' q] Hp Hq E.
  - reflexivity.
  - destruct s'; discriminate.
  - destruct s; discriminate.
  - cbn [forallb] in Hp, Hq.
    apply andb_true_iff in Hp, Hq. destruct Hp as [Hs Hp], Hq as [Hs' Hq].
    cbn [segments] in E.
    destruct s as [k|i], s' as [k'|i']; cbn [segment] in E;
      rewrite ?append_assoc in E; try discriminate.
    + injection E as E.
      destruct (plain_split k k' _ _ Hs Hs'
                  (segments_delimited p) (segments_delimited q) E)
        as [-> E'].
      f_equal. now apply IH.
    + injection E as E.
      destruct (digits_split _ _ _ _ (dec_digits i) (dec_digits i') E)
        as [Ed E'].
      apply dec_inj in Ed. subst i'. f_equal. now apply IH.
Qed.

Lemma path_string_inj p q :
  forallb plain_step p = true -> forallb plain_step q = true ->
  path_string p = path_string q -> p = q.
Proof.
  intros Hp Hq E. unfold path_string in E.
  rewrite !path_from_segments in E. apply append_inj_l in E.
  now apply segments_inj.
Qed.

End PathFacts.

(* ================================================================== *)
(** ** The tree view: properties *)

Module ViewMore.
Import Js JsFacts TrimFacts View ViewFacts PathFacts.

Section Render.
Variable JSON_stringify : string -> string.
Variable Number_toString : spec_float -> string.

Local Abbreviation renderJson := (renderJson JSON_stringify Number_toString).

(** X14.  In the tree view of a parsed value the lines with a toggle
    are exactly the arrays and objects all of whose ancestors are
    expanded: each such line carries the structural path of its node, is
    indented by the depth of the node, and is marked collapsed exactly
    when its path is in the set.  There is one toggle for each of these
    nodes and no other: read from top to bottom, the toggles of the
    view are those of the arrays and objects in view, in document
    order, so the lines of scalars and of closing brackets carry
    none. *)
Theorem renderJson_toggles (collapsedPaths : list string) (value : JsonValue) :
  well_formed value = true ->
  (forall line p col,
      In line (renderJson collapsedPaths value) ->
      options line = Some (p, col) ->
      hasToggle line = true
      /\ exists steps node,
          p = path_string steps
          /\ node_at value steps = Some node
          /\ is_scalar node = false
          /\ depth line = length steps
          /\ col = has collapsedPaths p
          /\ (forall n, n < length steps ->
                has collapsedPaths (path_string (firstn n steps)) = false))
  /\ (forall steps node,
         node_at value steps = Some node ->
         is_scalar node = false ->
         (forall n, n < length steps ->
            has collapsedPaths (path_string (firstn n steps)) = false) ->
         exists line,
           In line (renderJson collapsedPaths value)
           /\ options line
              = Some (path_string steps,
                      has collapsedPaths (path_string steps))
           /\ depth line = length steps)
  /\ toggles (renderJson collapsedPaths value)
     = map (fun steps => (path_string steps,
                          has collapsedPaths (path_string steps)))
           (shown_containers collapsedPaths [] value).
Proof.
  intros W. split; [|split].
  - intros line p col Hin Ho.
    pose proof (renderNode_toggle_sound _ _ _ _ W _ _ _ _ _ _ _ Hin Ho)
      as [steps [node [Ep H]]].
    split; [|exists steps, node; auto].
    unfold hasToggle. rewrite Ho, Ep, path_from_segments. reflexivity.
  - intros steps node Hn Hs Ha.
    apply (renderNode_toggle_complete _ _ collapsedPaths steps value "$" 0
             true None node Hn Hs Ha).
  - apply (renderNode_toggles _ _ collapsedPaths value [] 0 true None).
Qed.

(** X15.  With nothing collapsed the tree view has one line for every
    node of the value and one more for every array and object (its
    closing bracket). *)
Theorem renderJson_expanded_length (value : JsonValue) :
  length (renderJson [] value) = node_count value + container_count value.
Proof. apply renderNode_length_expanded. Qed.

(** X16.  The tree view always has a line, and collapsing more paths
    never makes it longer. *)
Theorem renderJson_collapse_shrinks
        (collapsed collapsed' : list string) (value : JsonValue) :
  (forall p, has collapsed p = true -> has collapsed' p = true) ->
  1 <= length (renderJson collapsed' value)
  <= length (renderJson collapsed value).
Proof. intros H. now apply renderNode_length_mono. Qed.

(** X17.  Toggling a path flips its membership in the set and no other;
    toggling it twice leaves the tree view of every value as it was. *)
Theorem toggleCollapsed_twice (path : string) (collapsed : list string) :
  (forall q, has (toggleCollapsed path collapsed) q
             = if String.eqb q path then negb (has collapsed path)
               else has collapsed q)
  /\ forall value,
      renderJson (toggleCollapsed path (toggleCollapsed path collapsed)) value
      = renderJson collapsed value.
Proof.
  split; [intros q; apply has_toggleCollapsed|].
  intros value. apply renderNode_ext. intros q.
  rewrite !has_toggleCollapsed, String.eqb_refl.
  destruct (String.eqb q path) eqn:E; [|reflexivity].
  apply String.eqb_eq in E. subst q. now rewrite negb_involutive.
Qed.

End Render.

Lemma node_at_plain steps : forall v node,
  plain_keys v = true -> node_at v steps = Some node ->
  forallb plain_step steps = true.
Proof.
  induction steps as [|[k|i] steps IH]; intros v node Hp Hn;
    [reflexivity| |]; cbn [node_at] in Hn.
  - destruct v as [| | | |xs|es]; try discriminate.
    destruct (obj_get es k) as [c|] eqn:E; [|discriminate].
    apply obj_get_In in E. cbn [plain_keys] in Hp.
    rewrite forallb_forall in Hp. specialize (Hp _ E). cbn [fst snd] in Hp.
    apply andb_true_iff in Hp. destruct Hp as [Hk Hc].
    cbn [forallb plain_step]. rewrite Hk. now apply (IH c node).
  - destruct v as [| | | |xs|es]; try discriminate.
    destruct (nth_error xs i) as [c|] eqn:E; [|discriminate].
    apply nth_error_In in E. cbn [plain_keys] in Hp.
    rewrite forallb_forall in Hp. specialize (Hp _ E).
    cbn [forallb plain_step]. now apply (IH c node).
Qed.

(** X18.  Two sequences of steps whose keys hold no dot and no opening
    bracket spell the same structural path only if they are the same
    sequence. *)
Theorem path_string_injective (p q : list step) :
  forallb plain_step p = true ->
  forallb plain_step q = true ->
  path_string p = path_string q -> p = q.
Proof. apply path_string_inj. Qed.

Lemma path_string_injective_witness :
  path_string [Key "users"; Index 0] = "$.users[0]"
  /\ [Key "users"; Index 0] = [Key "users"; Index 0].
Proof.
  split; [reflexivity|].
  apply (path_string_injective [Key "users"; Index 0] [Key "users"; Index 0]);
    reflexivity.
Defined.

(** A key may spell the path of another node: the first element of the
    array under [a] and the entry of key [a[0]] share the path
    [$.a[0]], hence one toggle. *)
Remark path_string_collision :
  path_string [Key "a"; Index 0] = path_string [Key "a[0]"].
Proof. reflexivity. Qed.

(** X19.  In the tree view of a parsed value with plain keys, a
    collapsed path hides every toggle below it: no line carries the path
    of a proper extension of a collapsed path. *)
Theorem collapsed_hides_descendants
        (JSON_stringify : string -> string)
        (Number_toString : spec_float -> string)
        (collapsedPaths : list string) (value : JsonValue)
        (steps more : list step) (line : Line) (col : bool) :
  well_formed value = true ->
  plain_keys value = true ->
  has collapsedPaths (path_string steps) = true ->
  more <> [] ->
  forallb plain_step (steps ++ more) = true ->
  In line (View.renderJson JSON_stringify Number_toString collapsedPaths value) ->
  options line <> Some (path_string (steps ++ more), col).
Proof.
  intros W P Hc Hm Hplain Hin Ho.
  destruct (renderNode_toggle_sound _ _ _ _ W _ _ _ _ _ _ _ Hin Ho)
    as [steps' [node [Ep [Hn [_ [_ [_ Ha]]]]]]].
  fold (path_string steps') in Ep.
  assert (E : steps ++ more = steps').
  { apply path_string_inj; try assumption.
    now apply (node_at_plain steps' value node). }
  subst steps'.
  specialize (Ha (length steps)).
  rewrite firstn_app, firstn_all, Nat.sub_diag in Ha.
  cbn [firstn] in Ha. rewrite app_nil_r in Ha.
  fold (path_string steps) in Ha. rewrite Hc in Ha.
  assert (length steps < length (steps ++ more)).
  { rewrite length_app. destruct more; [contradiction | simpl; lia]. }
  specialize (Ha H). discriminate.
Qed.

Lemma renderJson_toggles_witness :
  exists line,
    In line (View.renderJson (fun s => s) (fun _ => "0") [] Samples.users)
    /\ options line = Some (path_string [Key "users"], false)
    /\ depth line = 1.
Proof.
  apply (proj1 (proj2 (renderJson_toggles (fun s => s) (fun _ => "0") []
                         Samples.users eq_refl))
               [Key "users"]
               (JArray
                  [JObject [("id", Samples.num 1); ("name", JString "Ada");
                            ("roles",
                             JArray [JString "admin"; JString "editor"])];
                   JObject [("id", Samples.num 2); ("name", JString "Max");
                            ("roles", JArray [JString "viewer"])]])).
  - reflexivity.
  - reflexivity.
  - intros [|n] Hn; [reflexivity | simpl in Hn; lia].
Defined.

Lemma renderJson_collapse_shrinks_witness :
  1 <= length (View.renderJson (fun s => s) (fun _ => "0") ["$"] Samples.users)
  <= length (View.renderJson (fun s => s) (fun _ => "0") [] Samples.users).
Proof.
  apply (renderJson_collapse_shrinks (fun s => s) (fun _ => "0") [] ["$"]
           Samples.users).
  intros p H. discriminate.
Defined.

Lemma collapsed_hides_descendants_witness :
  options (mkLine "{" 0 (Some ("$", false)))
  <> Some (path_string ([Key "users"] ++ [Index 0]), false).
Proof.
  apply (collapsed_hides_descendants (fun s => s) (fun _ => "0")
           ["$.users"] Samples.users [Key "users"] [Index 0]
           (mkLine "{" 0 (Some ("$", false))) false);
    try reflexivity.
  - discriminate.
  - left. reflexivity.
Defined.

End ViewMore.

(* ================================================================== *)
(** ** The handlers *)

Module AppMore.
Import Js JsFacts TrimFacts App.

Section Handlers.
Variable Number_parseInt : string -> option Z.
Variable JSON_parse : string -> string + JsonValue.
Variable JSON_stringify : JsonValue -> string.
Variable JSON_stringify_schema : JsonSchema -> string.
Variable generateSchema_thrown : JsonValue -> option string.
Variable generateSchema_beyond : JsonValue -> string * Shown.

Local Abbreviation handleTrim :=
  (handleTrim Number_parseInt JSON_parse JSON_stringify).
Local Abbreviation handleGenerateSchema :=
  (handleGenerateSchema JSON_parse JSON_stringify_schema
                        generateSchema_thrown generateSchema_beyond).
Local Abbreviation handleFormatInput :=
  (handleFormatInput JSON_parse JSON_stringify).
Local Abbreviation generated :=
  (generated JSON_stringify_schema generateSchema_thrown
             generateSchema_beyond).

(** X20.  Whatever the state, [handleTrim] leaves either an error with
    the output cleared, or the parsed input trimmed with the limit that
    was typed, a negative one counting as 0: a value in which no array
    exceeds that limit, shown with every node expanded.  It never
    touches the input, the limit text or the copy label, and a failed
    run leaves the collapsed paths and the output mode as they were. *)
Theorem handleTrim_outcome (s : State) :
  (forall text v, JSON_parse text = inr v -> well_formed v = true) ->
  let s' := handleTrim s in
  (error s' = None ->
   exists n parsed,
     Number_parseInt (arrayLimit s) = Some n
     /\ JSON_parse (input s) = inr parsed
     /\ outputValue s' = ShownValue (trimStructure parsed (Z.max n 0))
     /\ output s' = JSON_stringify (trimStructure parsed (Z.max n 0))
     /\ arrays_within (Z.max n 0) (trimStructure parsed (Z.max n 0)) = true
     /\ well_formed (trimStructure parsed (Z.max n 0)) = true
     /\ collapsedPaths s' = []
     /\ outputMode s' = ModeTrim)
  /\ (error s' <> None ->
      output s' = ""
      /\ outputValue s' = ShownValue JNull
      /\ collapsedPaths s' = collapsedPaths s
      /\ outputMode s' = outputMode s)
  /\ input s' = input s
  /\ arrayLimit s' = arrayLimit s
  /\ copyLabel s' = copyLabel s.
Proof.
  intros W. cbv zeta. unfold App.handleTrim, parsedLimit.
  destruct (Number_parseInt (arrayLimit s)) as [n|] eqn:En.
  - destruct (JSON_parse (input s)) as [message|parsed] eqn:Ep.
    + cbn. repeat split; try discriminate; auto.
    + cbn. repeat split; try congruence.
      intros _. exists n, parsed. specialize (W _ _ Ep).
      repeat split.
      * apply trimStructure_arrays_within; [assumption | lia].
      * now apply trimStructure_well_formed.
  - cbn. repeat split; try discriminate; auto.
Qed.

Lemma failed_failed s m m' : failed (failed s m) m' = failed s m'.
Proof. reflexivity. Qed.

(** X21.  When [handleGenerateSchema] leaves no error, the input has
    parsed and the view is reset to schema mode with every node
    expanded; the output is then, for a value none of whose keys names
    a property of [Object.prototype], the generated schema and its
    text.  It leaves no error whenever the input parses and nothing is
    thrown after; an input that does not parse is reported with the
    parser's message; a failed run clears the output and leaves the
    collapsed paths and the mode as they were; the input, the limit
    text and the copy label are never touched.  The two buttons compose
    as follows.  Generating the schema after a trim shows what
    generating alone shows: the same input, output, shown object,
    error, limit and copy label; the two states are the same unless the
    trim succeeded and the generation failed, when the collapsed paths
    and the mode are those the trim left.  Likewise trimming after
    generating gives the state of trimming alone, when the limit text
    is a number, unless the generation succeeded and the trim failed.
    Pressing either button twice is pressing it once. *)
Theorem handlers_compose :
  (forall s,
      let s' := handleGenerateSchema s in
      (error s' = None ->
       exists parsed,
         JSON_parse (input s) = inr parsed
         /\ (ordinary_keys parsed = true ->
             output s' = JSON_stringify_schema (generateSchema parsed)
             /\ outputValue s' = ShownSchema (generateSchema parsed))
         /\ collapsedPaths s' = []
         /\ outputMode s' = ModeSchema)
      /\ (forall parsed,
             JSON_parse (input s) = inr parsed ->
             generateSchema_thrown parsed = None ->
             error s' = None)
      /\ (forall message,
             JSON_parse (input s) = inl message ->
             error s' = Some ("JSON error: " ++ message)%string)
      /\ (error s' <> None ->
          output s' = ""
          /\ outputValue s' = ShownValue JNull
          /\ collapsedPaths s' = collapsedPaths s
          /\ outputMode s' = outputMode s)
      /\ input s' = input s
      /\ arrayLimit s' = arrayLimit s
      /\ copyLabel s' = copyLabel s)
  /\ (forall s,
      let a := handleGenerateSchema (handleTrim s) in
      let b := handleGenerateSchema s in
      input a = input b /\ output a = output b
      /\ outputValue a = outputValue b /\ arrayLimit a = arrayLimit b
      /\ error a = error b /\ copyLabel a = copyLabel b
      /\ (error b = None \/ error (handleTrim s) <> None -> a = b))
  /\ (forall s,
         Number_parseInt (arrayLimit s) <> None ->
         error (handleTrim s) = None \/ error (handleGenerateSchema s) <> None ->
         handleTrim (handleGenerateSchema s) = handleTrim s)
  /\ (forall s, handleTrim (handleTrim s) = handleTrim s)
  /\ (forall s,
         handleGenerateSchema (handleGenerateSchema s)
         = handleGenerateSchema s).
Proof.
  split.
  { intros s. cbv zeta. unfold App.handleGenerateSchema.
    destruct (JSON_parse (input s)) as [message|parsed] eqn:Ep.
    - cbn. repeat split; try discriminate; congruence.
    - unfold App.generated.
      destruct (generateSchema_thrown parsed) as [thrown|] eqn:Et.
      + cbn. repeat split; try discriminate; congruence.
      + destruct (ordinary_keys parsed) eqn:Eo.
        * cbn. repeat split; try discriminate; try congruence.
          intros _. exists parsed. repeat split.
        * destruct (generateSchema_beyond parsed) as [text shown].
          cbn. repeat split; try discriminate; try congruence.
          intros _. exists parsed. repeat split; congruence. }
  split; [|split; [|split]]; intros s; cbv zeta;
    unfold App.handleTrim, App.handleGenerateSchema, parsedLimit;
    try intros Hn; try intros _;
    destruct (Number_parseInt (arrayLimit s)) as [n|] eqn:En;
    destruct (JSON_parse (input s)) as [message|parsed] eqn:Ep;
    cbn; rewrite ?En, ?Ep; cbn; try contradiction;
    try (destruct (generated parsed) as [thrown|[text shown]] eqn:Eg; cbn;
         rewrite ?En, ?Ep; cbn; rewrite ?Eg; cbn);
    try reflexivity;
    repeat split; try reflexivity;
    intros [H|H]; try discriminate; try reflexivity;
    exfalso; apply H; reflexivity.
Qed.

(** On a value with a key of [Object.prototype] the generation may
    throw after a trim that succeeded; the failed generation then keeps
    the collapsed paths that the trim has reset, not those of the state
    before. *)
Remark generation_thrown_after_trim :
  let value := JObject [("__proto__", JNull)] in
  let s := mkState "" "" (ShownValue JNull) "1" None "Copy" ["$"] ModeSchema in
  let trim := App.handleTrim (fun _ => Some 1%Z) (fun _ => inr value)
                             (fun _ => "") in
  let generate := App.handleGenerateSchema (fun _ => inr value) (fun _ => "")
                                           (fun _ => Some "thrown")
                                           (fun _ => ("", ShownOther)) in
  collapsedPaths (generate (trim s)) = []
  /\ collapsedPaths (generate s) = ["$"].
Proof. split; reflexivity. Qed.

(** X22.  [handleFormatInput] replaces an input that parses by the
    formatted text of its value and clears the error; it leaves an
    input that does not parse as typed and reports the parser's
    message.  It commutes with the two buttons, provided [JSON.parse]
    reads the formatted text back as the value it was made from: what
    Trim and Generate leave after a Format is what they leave without
    it, beside the formatted input; and formatting twice is formatting
    once. *)
Theorem handleFormatInput_commutes (s : State) :
  (forall parsed,
      JSON_parse (input s) = inr parsed ->
      JSON_parse (JSON_stringify parsed) = inr parsed) ->
  let f := handleFormatInput s in
  handleFormatInput f = f
  /\ handleTrim f = setInput (input f) (handleTrim s)
  /\ handleGenerateSchema f = setInput (input f) (handleGenerateSchema s)
  /\ (forall parsed,
         JSON_parse (input s) = inr parsed ->
         input f = JSON_stringify parsed /\ error f = None)
  /\ (forall message,
         JSON_parse (input s) = inl message ->
         input f = input s
         /\ error f = Some ("JSON error: " ++ message)%string).
Proof.
  intros R. cbv zeta.
  unfold App.handleFormatInput, App.handleTrim, App.handleGenerateSchema,
    parsedLimit, setInput, failed.
  destruct (JSON_parse (input s)) as [message|parsed] eqn:Ep; cbn.
  - rewrite Ep. cbn.
    destruct (Number_parseInt (arrayLimit s)); cbn;
      repeat split; try reflexivity; try discriminate; congruence.
  - rewrite (R parsed eq_refl). cbn.
    destruct (Number_parseInt (arrayLimit s)); cbn;
      destruct (generated parsed) as [thrown|[text shown]]; cbn;
      repeat split; try reflexivity; try discriminate; congruence.
Qed.

End Handlers.

Lemma handleTrim_outcome_witness :
  exists n parsed,
    Some (-3)%Z = Some n
    /\ @inr string JsonValue Samples.users = inr parsed
    /\ outputValue
         (App.handleTrim (fun _ => Some (-3)%Z) (fun _ => inr Samples.users)
            (fun _ => "")
            (mkState "" "" (ShownValue JNull) "-3" None "Copy" [] ModeTrim))
       = ShownValue (trimStructure parsed (Z.max n 0))
    /\ "" = ""
    /\ arrays_within (Z.max n 0) (trimStructure parsed (Z.max n 0)) = true
    /\ well_formed (trimStructure parsed (Z.max n 0)) = true
    /\ @nil string = []
    /\ ModeTrim = ModeTrim.
Proof.
  apply (proj1 (handleTrim_outcome (fun _ => Some (-3)%Z)
                  (fun _ => inr Samples.users) (fun _ => "")
                  (mkState "" "" (ShownValue JNull) "-3" None "Copy" []
                           ModeTrim)
                  (fun text v (E : inr Samples.users = inr v) =>
                     match E in _ = r
                           return match r with
                                  | inr w => well_formed w = true
                                  | inl _ => True
                                  end
                     with eq_refl => eq_refl end))).
  reflexivity.
Defined.

Lemma handlers_compose_witness :
  App.handleTrim (fun _ => Some 1%Z) (fun _ => inr Samples.users)
    (fun _ => "")
    (App.handleGenerateSchema (fun _ => inr Samples.users) (fun _ => "")
       (fun _ => None) (fun _ => ("", ShownOther))
       (mkState "" "" (ShownValue JNull) "1" None "Copy" [] ModeTrim))
  = App.handleTrim (fun _ => Some 1%Z) (fun _ => inr Samples.users)
      (fun _ => "")
      (mkState "" "" (ShownValue JNull) "1" None "Copy" [] ModeTrim).
Proof.
  apply (proj1 (proj2 (proj2 (handlers_compose (fun _ => Some 1%Z)
                                (fun _ => inr Samples.users)
                                (fun _ => "") (fun _ => "")
                                (fun _ => None)
                                (fun _ => ("", ShownOther)))))).
  - discriminate.
  - left. reflexivity.
Defined.

Lemma handleFormatInput_commutes_witness :
  App.handleTrim (fun _ => Some 1%Z) (fun _ => inr Samples.users)
    (fun _ => "formatted")
    (App.handleFormatInput (fun _ => inr Samples.users)
       (fun _ => "formatted")
       (mkState "typed" "" (ShownValue JNull) "1" None "Copy" [] ModeTrim))
  = setInput "formatted"
      (App.handleTrim (fun _ => Some 1%Z) (fun _ => inr Samples.users)
         (fun _ => "formatted")
         (mkState "typed" "" (ShownValue JNull) "1" None "Copy" [] ModeTrim)).
Proof.
  apply (proj1 (proj2 (handleFormatInput_commutes (fun _ => Some 1%Z)
                         (fun _ => inr Samples.users)
                         (fun _ => "formatted") (fun _ => "")
                         (fun _ => None) (fun _ => ("", ShownOther))
                         (mkState "typed" "" (ShownValue JNull) "1" None
                                  "Copy" [] ModeTrim)
                         (fun parsed e => e)))).
Defined.

End AppMore.
